(** * rn-azure-translator: the incremental translation-merge pipeline

    A shallow embedding of [src/index.js]: the JavaScript values the
    localization trees are made of, the recursive missing-key diff
    ([findMissingKeys]), the retrying provider wrapper ([apiSingleCall]),
    the tree translator ([translateNestedObject]), the merge and the
    serializer ([saveTranslations], [formatValue]) and the locale loop
    ([translateForAllLanguages]), followed by the properties the
    specification states about them. *)

From Stdlib Require Import List String Ascii ZArith NArith Bool Arith Lia.
From Stdlib Require Import DecimalString Decimal.
From Stdlib Require DecimalNat DecimalFacts.
Import ListNotations.
Open Scope string_scope.

Set Warnings "-register-all".

(** ** JavaScript values

    The trees are what [JSON.parse] or a TypeScript module's default export
    yields.  Numbers are kept as integers: the program never computes with
    the numbers of a tree, it only tests them for truthiness and copies
    them.  A string is the sequence of its bytes.  An object is the list of
    its own enumerable properties in enumeration order, which is what
    [for ... in], [Object.entries], [Object.keys] and the spread syntax
    walk. *)

Inductive value : Type :=
| VUndef
| VNull
| VBool (b : bool)
| VNum (n : Z)
| VStr (s : string)
| VArr (l : list value)
| VObj (o : list (string * value)).

Definition obj := list (string * value).

Definition keys (o : obj) : list string := map fst o.

(** [typeof v === 'object' && !Array.isArray(v) && v !== null] *)
Definition is_plain_object (v : value) : bool :=
  match v with VObj _ => true | _ => false end.

(** [v === undefined || v === null] *)
Definition nullish (v : value) : bool :=
  match v with VUndef | VNull => true | _ => false end.

(** ToBoolean *)
Definition truthy (v : value) : bool :=
  match v with
  | VUndef | VNull => false
  | VBool b => b
  | VNum n => negb (n =? 0)%Z
  | VStr s => negb (s =? "")
  | VArr _ | VObj _ => true
  end.

(** *** Property keys

    A key that is the canonical decimal form of an integer below [2^32 - 1]
    is an array index.  Array indices are enumerated first, in ascending
    order; the other keys follow in the order of their creation. *)

Definition digit_of (c : ascii) : option N :=
  let n := N_of_ascii c in
  if ((48 <=? n) && (n <=? 57))%N then Some (n - 48)%N else None.

Fixpoint digits_value (s : string) (acc : N) : option N :=
  match s with
  | EmptyString => Some acc
  | String c s' =>
      match digit_of c with
      | Some d => digits_value s' (10 * acc + d)%N
      | None => None
      end
  end.

Definition array_index (k : string) : option N :=
  match k with
  | EmptyString => None
  | String c rest =>
      if (Ascii.eqb c "0" && negb (rest =? ""))%bool then None
      else match digits_value k 0 with
           | Some n => if (n <? 4294967295)%N then Some n else None
           | None => None
           end
  end.

(** Own property lookup: [o.hasOwnProperty(k)] and the own part of [o[k]]. *)
Fixpoint get_own (o : obj) (k : string) : option value :=
  match o with
  | [] => None
  | (k', v) :: o' => if k' =? k then Some v else get_own o' k
  end.

Definition hasOwnProperty (o : obj) (k : string) : bool :=
  match get_own o k with Some _ => true | None => false end.

(** [o[k] = v] on an ordinary object: an existing property keeps its place,
    a new array index goes before the first larger index and before every
    other key, any other new key goes last. *)
Fixpoint set_index (n : N) (k : string) (v : value) (o : obj) : obj :=
  match o with
  | [] => [(k, v)]
  | (k', v') :: o' =>
      if k' =? k then (k, v) :: o'
      else match array_index k' with
           | Some n' =>
               if (n <? n')%N then (k, v) :: (k', v') :: o'
               else (k', v') :: set_index n k v o'
           | None => (k, v) :: (k', v') :: o'
           end
  end.

Fixpoint set_named (k : string) (v : value) (o : obj) : obj :=
  match o with
  | [] => [(k, v)]
  | (k', v') :: o' =>
      if k' =? k then (k, v) :: o' else (k', v') :: set_named k v o'
  end.

Definition obj_set (o : obj) (k : string) (v : value) : obj :=
  match array_index k with
  | Some n => set_index n k v o
  | None => set_named k v o
  end.

(** [{ ...a, ...b }]: the own properties of [a], then those of [b], assigned
    one by one. *)
Definition assign_all (o : obj) (b : obj) : obj :=
  fold_left (fun acc kv => obj_set acc (fst kv) (snd kv)) b o.

(** The own enumerable properties a spread copies: those of an object, the
    elements of an array, the characters of a string, nothing otherwise. *)
Fixpoint indexed (i : nat) (l : list value) : obj :=
  match l with
  | [] => []
  | v :: l' => (NilZero.string_of_uint (Nat.to_uint i), v) :: indexed (S i) l'
  end.

Fixpoint chars (s : string) : list value :=
  match s with
  | EmptyString => []
  | String c s' => VStr (String c EmptyString) :: chars s'
  end.

Definition own_entries (v : value) : obj :=
  match v with
  | VObj o => o
  | VArr l => indexed 0 l
  | VStr s => indexed 0 (chars s)
  | _ => []
  end.

Definition spread (a b : value) : obj :=
  assign_all (assign_all [] (own_entries a)) (own_entries b).

(** [v[k]] for a value that is not null or undefined.  Only own properties
    are modelled: a key is taken not to name a member of a built-in
    prototype ([constructor], [toString], ...); the properties that rest
    on a key being absent are stated for keys that are no such name.  A
    string is a sequence of bytes here, and an index counts bytes where
    JavaScript counts UTF-16 units; the two agree on ASCII strings. *)
Definition member (v : value) (k : string) : value :=
  match v with
  | VObj o => match get_own o k with Some x => x | None => VUndef end
  | VArr l =>
      match array_index k with
      | Some n => nth (N.to_nat n) l VUndef
      | None => if k =? "length" then VNum (Z.of_nat (List.length l)) else VUndef
      end
  | VStr s =>
      match array_index k with
      | Some n =>
          match String.get (N.to_nat n) s with
          | Some c => VStr (String c EmptyString)
          | None => VUndef
          end
      | None => if k =? "length" then VNum (Z.of_nat (String.length s)) else VUndef
      end
  | _ => VUndef
  end.

(** [target ? target[key] : undefined] *)
Definition target_value (target : value) (key : string) : value :=
  if truthy target then member target key else VUndef.

(** ** The tree differ

    [findMissingKeys(source, target)], lines 191-213.  The loop walks the own
    keys of [source]; a nested object is diffed against whatever the target
    holds at that key, any other value is kept when the target's value is
    undefined or null.  The function is only ever applied to an object: the
    recursive call is guarded by the [typeof] test and the outer call
    receives the source tree. *)
Fixpoint findMissing (source : value) (target : value) : obj :=
  match source with
  | VObj entries =>
      (fix loop (es : obj) (missingKeys : obj) {struct es} : obj :=
         match es with
         | [] => missingKeys
         | (key, sourceValue) :: es' =>
             let targetValue := target_value target key in
             if is_plain_object sourceValue then
               let nestedMissing := findMissing sourceValue targetValue in
               match keys nestedMissing with
               | [] => loop es' missingKeys
               | _ :: _ => loop es' (obj_set missingKeys key (VObj nestedMissing))
               end
             else if nullish targetValue then
               loop es' (obj_set missingKeys key sourceValue)
             else loop es' missingKeys
         end) entries []
  | _ => []
  end.

Definition findMissingKeys (source : obj) (target : value) : obj :=
  findMissing (VObj source) target.

(** ** Asynchronous programs

    The effectful functions are [async] functions.  They are written in a
    small monad whose operations are the effects the source performs: a
    provider request ([axios.post], awaited inside [try]: its answer is the
    translated text, or nothing when the request or the reading of its
    response throws), a timer ([sleep]), the global [currentLanguage], the
    file system, and the call of an [async] function whose promise is not
    awaited ([Detach]).  Console output is not modelled. *)

Inductive prog (A : Type) : Type :=
| Ret (a : A)
| Throw (msg : string)
| Post (text lang : string) (k : option string -> prog A)
| Sleep (ms : Z) (k : prog A)
| GetLang (k : string -> prog A)
| SetLang (l : string) (k : prog A)
| ReadFile (path : string) (k : option string -> prog A)
| WriteFile (path content : string) (k : prog A)
| Detach (p : prog unit) (k : prog A).

Arguments Ret {A} a.
Arguments Throw {A} msg.
Arguments Post {A} text lang k.
Arguments Sleep {A} ms k.
Arguments GetLang {A} k.
Arguments SetLang {A} l k.
Arguments ReadFile {A} path k.
Arguments WriteFile {A} path content k.
Arguments Detach {A} p k.

Fixpoint bind {A B : Type} (m : prog A) (f : A -> prog B) : prog B :=
  match m with
  | Ret a => f a
  | Throw msg => Throw msg
  | Post text lang k => Post text lang (fun r => bind (k r) f)
  | Sleep ms k => Sleep ms (bind k f)
  | GetLang k => GetLang (fun l => bind (k l) f)
  | SetLang l k => SetLang l (bind k f)
  | ReadFile path k => ReadFile path (fun c => bind (k c) f)
  | WriteFile path content k => WriteFile path content (bind k f)
  | Detach p k => Detach p (bind k f)
  end.

Declare Scope prog_scope.
Delimit Scope prog_scope with prog.
Notation "x <- m ;; k" := (bind m (fun x => k))
  (at level 61, m at next level, right associativity) : prog_scope.
Notation "m ;;; k" := (bind m (fun _ => k))
  (at level 61, right associativity) : prog_scope.
Open Scope prog_scope.

Fixpoint mapM {A B : Type} (f : A -> prog B) (l : list A) : prog (list B) :=
  match l with
  | [] => Ret []
  | a :: l' => b <- f a ;; bs <- mapM f l' ;; Ret (b :: bs)
  end.

(** *** Characters used by the source's literals *)
Definition nl : ascii := "010"%char.
Definition dquote : ascii := "034"%char.
Definition squote : ascii := "039"%char.
Definition backtick : ascii := "096"%char.
Definition backslash : ascii := "092"%char.
Definition str1 (c : ascii) : string := String c EmptyString.

Definition string_of_nat (n : nat) : string :=
  NilZero.string_of_uint (Nat.to_uint n).

Definition string_of_Z (z : Z) : string :=
  NilZero.string_of_int (Z.to_int z).

(** ** The provider adapter

    [apiSingleCall(value, desiredLanguage, retryCount = 3, delay = 1000)],
    lines 154-188; the parameter [value] is called [text] here.
    [api_attempts left attempt] is the [for] loop entered with the loop
    variable at [attempt] and [left = retryCount + 1 - attempt] iterations
    to go; when no iteration is left the loop is over and the function
    returns [undefined].  The number of attempts is a natural number and
    the pause an integer number of milliseconds. *)
Definition persistent_error (text : string) (retryCount : nat) : string :=
  "Erro persistente ao tentar traduzir " ++ str1 dquote ++ text ++ str1 dquote
  ++ " após " ++ string_of_nat retryCount ++ " tentativas.".

Fixpoint api_attempts (left attempt retryCount : nat) (delay : Z)
    (text desiredLanguage : string) : prog value :=
  match left with
  | O => Ret VUndef
  | S left' =>
      Post text desiredLanguage (fun response =>
        match response with
        | Some translated => Ret (VStr translated)
        | None =>
            if (attempt <? retryCount)%nat then
              Sleep delay
                (api_attempts left' (S attempt) retryCount (delay * 2)
                   text desiredLanguage)
            else Throw (persistent_error text retryCount)
        end)
  end.

Definition apiSingleCall_with (text desiredLanguage : string)
    (retryCount : nat) (delay : Z) : prog value :=
  api_attempts retryCount 1 retryCount delay text desiredLanguage.

Definition apiSingleCall (text desiredLanguage : string) : prog value :=
  apiSingleCall_with text desiredLanguage 3 1000.

(** ** The tree translator

    [translateNestedObject(obj, desiredLanguage)], lines 239-258.  The
    elements of an array are requested together and awaited with
    [Promise.all]; here they are awaited one after the other, which yields
    the same array when every element is translated.  The requests of one
    array are made in the order of its elements there as here; the order in
    which they are answered, and what becomes of the others when one of
    them fails, is not observed by any statement below. *)
Definition translate_item (desiredLanguage : string) (item : value) : prog value :=
  match item with
  | VStr s => apiSingleCall s desiredLanguage
  | _ => Ret item
  end.

Fixpoint translate_value (desiredLanguage : string) (v : value) : prog value :=
  match v with
  | VStr s => apiSingleCall s desiredLanguage
  | VArr l => l' <- mapM (translate_item desiredLanguage) l ;; Ret (VArr l')
  | VObj entries =>
      (fix loop (es : obj) (translatedObj : obj) {struct es} : prog value :=
         match es with
         | [] => Ret (VObj translatedObj)
         | (key, v') :: es' =>
             t <- translate_value desiredLanguage v' ;;
             loop es' (obj_set translatedObj key t)
         end) entries []
  | _ => Ret v
  end.

Definition translateNestedObject (o : obj) (desiredLanguage : string) : prog obj :=
  v <- translate_value desiredLanguage (VObj o) ;;
  Ret (match v with VObj t => t | _ => [] end).

(** ** Dates and locale-aware formatting

    [Date.UTC(year, month, day)] is the number of milliseconds from the epoch
    to midnight UTC of the given day, [month] counted from 0 and [day] free
    to leave the month ([day = 0] is the last day of the month before).
    [Intl.DateTimeFormat] formats an instant in the time zone of the
    runtime: the weekday, or the month, of the calendar day the instant
    falls on there.  The names it produces are taken from the runtime. *)

Definition ms_per_day : Z := 86400000.

Definition days_from_civil (y m d : Z) : Z :=
  (let y' := if m <=? 2 then y - 1 else y in
   let era := y' / 400 in
   let yoe := y' - era * 400 in
   let doy := (153 * (if m <=? 2 then m + 9 else m - 3) + 2) / 5 + d - 1 in
   let doe := yoe * 365 + yoe / 4 - yoe / 100 + doy in
   era * 146097 + doe - 719468)%Z.

Definition Date_UTC (year month day : Z) : Z :=
  (days_from_civil year (month + 1) day * ms_per_day)%Z.

(** 0 is Sunday; the epoch was a Thursday. *)
Definition weekday_of_day (days : Z) : Z := ((days + 4) mod 7)%Z.

(** The month, counted from 0, of a day given by its distance to the epoch. *)
Definition month_of_day (days : Z) : Z :=
  (let z := days + 719468 in
   let era := z / 146097 in
   let doe := z - era * 146097 in
   let yoe := (doe - doe / 1460 + doe / 36524 - doe / 146096) / 365 in
   let doy := doe - (365 * yoe + yoe / 4 - yoe / 100) in
   let mp := (5 * doy + 2) / 153 in
   (if mp <? 10 then mp + 3 else mp - 9) - 1)%Z.

Record intl : Type := {
  utc_offset : Z;
  weekday_name : string -> string -> Z -> string;
  month_name : string -> string -> Z -> string
}.

Definition local_day (rt : intl) (date : Z) : Z :=
  ((date + utc_offset rt) / ms_per_day)%Z.

(** [new Intl.DateTimeFormat(locale, { weekday: format }).format(date)] *)
Definition format_weekday (rt : intl) (locale format : string) (date : Z) : string :=
  weekday_name rt locale format (weekday_of_day (local_day rt date)).

(** [new Intl.DateTimeFormat(locale, { month: format }).format(date)] *)
Definition format_month (rt : intl) (locale format : string) (date : Z) : string :=
  month_name rt locale format (month_of_day (local_day rt date)).

(** [[...Array(n).keys()]] *)
Definition range (n : nat) : list Z := map Z.of_nat (seq 0 n).

(** ** Serialization

    [JSON.stringify(v, null, 2)], [JSON.parse] and the loading of a
    TypeScript module are the runtime's. *)
Record codec : Type := {
  JSON_stringify : value -> string;
  JSON_parse : string -> option value;
  require_default : string -> option value
}.

Fixpoint includes (c : ascii) (s : string) : bool :=
  match s with
  | EmptyString => false
  | String c' s' => if Ascii.eqb c' c then true else includes c s'
  end.

(** [s.replace(/c/g, by)] for a single character [c] *)
Fixpoint replace_all (c : ascii) (by_ : string) (s : string) : string :=
  match s with
  | EmptyString => EmptyString
  | String c' s' =>
      if Ascii.eqb c' c then by_ ++ replace_all c by_ s'
      else String c' (replace_all c by_ s')
  end.

(** The conversion to a string a template literal applies. *)
Fixpoint to_string (v : value) : string :=
  match v with
  | VUndef => "undefined"
  | VNull => "null"
  | VBool true => "true"
  | VBool false => "false"
  | VNum n => string_of_Z n
  | VStr s => s
  | VArr l =>
      (fix join (l : list value) : string :=
         match l with
         | [] => ""
         | x :: l' =>
             (if nullish x then "" else to_string x)
             ++ match l' with [] => "" | _ :: _ => "," ++ join l' end
         end) l
  | VObj _ => "[object Object]"
  end.

(** ** The program's configuration

    What the top level of the module computes before the loop starts: the
    target locales, the loaded source tree, the resolved output directory,
    and the extension of the source file ([path.extname]), which
    [loadLanguageSource] has accepted. *)
Record config : Type := {
  outputLanguages : list string;
  languageSource : obj;
  outputDir : string;
  ext : string
}.

Section Pipeline.

Context (rt : intl) (cdc : codec) (cfg : config).

(** [daysForLocale(localeName)], lines 39-55.  The four name lists are
    computed first; the request for the fifth field reads the global
    [currentLanguage], not the parameter. *)
Definition daysForLocale (localeName : string) : prog value :=
  let localeCode := if localeName =? "lzh" then "zh" else localeName in
  let getWeekNames := fun format =>
    map (fun day => VStr (format_weekday rt localeCode format (Date_UTC 2021 5 day)))
        (range 7) in
  let getMonthNames := fun format =>
    map (fun month => VStr (format_month rt localeCode format (Date_UTC 2021 month 2)))
        (range 12) in
  let monthNames := getMonthNames "long" in
  let monthNamesShort := getMonthNames "short" in
  let dayNames := getWeekNames "long" in
  let dayNamesShort := getWeekNames "short" in
  GetLang (fun currentLanguage =>
    today <- apiSingleCall "Hoje" currentLanguage ;;
    Ret (VObj [("monthNames", VArr monthNames);
               ("monthNamesShort", VArr monthNamesShort);
               ("dayNames", VArr dayNames);
               ("dayNamesShort", VArr dayNamesShort);
               ("today", today)])).

(** [formatValue(value, key)], lines 74-95.  The result is a string for the
    derived calendar field and for a string value; any other value is
    returned as it is.  [value.replace(/\n/g, '\n')] replaces a line feed by
    a line feed. *)
Definition formatValue (v : value) (key : string) : value :=
  if key =? "calendar_locale" then
    match v with
    | VUndef => VUndef
    | _ => VStr (JSON_stringify cdc v)
    end
  else
    match v with
    | VStr s =>
        if includes nl s then
          VStr (str1 backtick ++ replace_all nl (str1 nl) s ++ str1 backtick)
        else if (includes squote s || includes dquote s)%bool then
          VStr (str1 backtick
                ++ replace_all backtick (str1 backslash ++ str1 backtick) s
                ++ str1 backtick)
        else VStr (str1 squote ++ s ++ str1 squote)
    | _ => v
    end.

(** The text of the TypeScript module, lines 112-118. *)
Definition ts_content (modifiedData : obj) : string :=
  fold_left
    (fun tsContent kv =>
       tsContent ++ "    " ++ fst kv ++ ": "
       ++ to_string (formatValue (snd kv) (fst kv)) ++ "," ++ str1 nl)
    modifiedData ("export default {" ++ str1 nl)
  ++ "};".

Definition unsupported_save (ext : string) : string :=
  "Extensão de arquivo não suportada para salvar: " ++ ext.

(** [saveTranslations(filePath, data, ext, missingKeys)], lines 100-123. *)
Definition saveTranslations (filePath : string) (data : obj) (ext : string)
    (missingKeys : obj) : prog unit :=
  let modifiedData := spread (VObj data) (VObj []) in
  modifiedData <-
    (if hasOwnProperty missingKeys "calendar_locale" then
       GetLang (fun currentLanguage =>
         calendarLocale <- daysForLocale currentLanguage ;;
         Ret (obj_set modifiedData "calendar_locale" calendarLocale))
     else Ret modifiedData) ;;
  if ext =? ".json" then
    WriteFile filePath (JSON_stringify cdc (VObj modifiedData)) (Ret tt)
  else if ext =? ".ts" then
    WriteFile filePath (ts_content modifiedData) (Ret tt)
  else Throw (unsupported_save ext).

(** The reading of the target file, lines 216-221: an empty tree when the
    file does not exist; a file that cannot be parsed or loaded throws. *)
Definition load_existing (filePath : string) : prog value :=
  ReadFile filePath (fun fileContent =>
    match fileContent with
    | None => Ret (VObj [])
    | Some content =>
        match (if ext cfg =? ".json" then JSON_parse cdc content
               else require_default cdc content) with
        | Some existingTranslations => Ret existingTranslations
        | None => Throw ("cannot load " ++ filePath)
        end
    end).

(** [translateAndSaveNestedObject(obj, desiredLanguage, filePath)],
    lines 215-237.  The call of [saveTranslations] is not awaited. *)
Definition translateAndSaveNestedObject (o : obj) (desiredLanguage filePath : string)
    : prog unit :=
  existingTranslations <- load_existing filePath ;;
  let missingKeys := findMissingKeys o existingTranslations in
  match keys missingKeys with
  | [] => Ret tt
  | _ :: _ =>
      translatedData <- translateNestedObject missingKeys desiredLanguage ;;
      let mergedData := spread existingTranslations (VObj translatedData) in
      Detach (saveTranslations filePath mergedData (ext cfg) missingKeys) (Ret tt)
  end.

(** [translateAllKeys(desiredLanguage)], lines 264-272. *)
Definition translateAllKeys (desiredLanguage : string) : prog unit :=
  let sourceData := languageSource cfg in
  let filePath := outputDir cfg ++ "/" ++ desiredLanguage ++ ".ts" in
  translateAndSaveNestedObject sourceData desiredLanguage filePath.

(** [translateForAllLanguages()], lines 274-282. *)
Fixpoint for_languages (languages : list string) : prog unit :=
  match languages with
  | [] => Ret tt
  | language :: rest =>
      SetLang language (translateAllKeys language ;;; for_languages rest)
  end.

Definition translateForAllLanguages : prog unit :=
  for_languages (outputLanguages cfg).

(** The last statement of the module: the loop is started, its promise is
    not awaited. *)
Definition main : prog unit := Detach translateForAllLanguages (Ret tt).

End Pipeline.

(** ** Running programs

    The world a program runs in: the global [currentLanguage], the files,
    the number of provider requests issued so far, the observable events in
    the order they happened, and the detached calls that are waiting. *)

Inductive result (A : Type) : Type :=
| Ok (a : A)
| Err (msg : string).
Arguments Ok {A} a.
Arguments Err {A} msg.

Inductive event : Type :=
| EvPost (id : nat) (text lang : string)
| EvResponse (id : nat) (answer : option string)
| EvSleep (ms : Z)
| EvSetLang (l : string)
| EvRead (path : string)
| EvWrite (path content : string)
| EvRejected (msg : string).

(** A call that waits: for the answer to a request it has issued, or for a
    timer. *)
Inductive waiting (A : Type) : Type :=
| OnPost (id : nat) (text lang : string) (k : option string -> prog A)
| OnSleep (ms : Z) (k : prog A).
Arguments OnPost {A} id text lang k.
Arguments OnSleep {A} ms k.

Inductive outcome (A : Type) : Type :=
| Done (r : result A)
| Waiting (s : waiting A).
Arguments Done {A} r.
Arguments Waiting {A} s.

Record world : Type := {
  currentLanguage : string;
  files : list (string * string);
  requests : nat;
  trace : list event;
  detached : list (waiting unit)
}.

Definition log (e : event) (w : world) : world :=
  {| currentLanguage := currentLanguage w; files := files w;
     requests := requests w; trace := trace w ++ [e];
     detached := detached w |}.

Definition set_language (l : string) (w : world) : world :=
  {| currentLanguage := l; files := files w;
     requests := requests w; trace := trace w ++ [EvSetLang l];
     detached := detached w |}.

Definition issue (text lang : string) (w : world) : world :=
  {| currentLanguage := currentLanguage w; files := files w;
     requests := S (requests w);
     trace := trace w ++ [EvPost (requests w) text lang];
     detached := detached w |}.

Fixpoint read_file (fs : list (string * string)) (path : string) : option string :=
  match fs with
  | [] => None
  | (p, c) :: fs' => if p =? path then Some c else read_file fs' path
  end.

Definition write_file (path content : string) (w : world) : world :=
  {| currentLanguage := currentLanguage w;
     files := (path, content) :: files w;
     requests := requests w; trace := trace w ++ [EvWrite path content];
     detached := detached w |}.

Definition set_detached (calls : list (waiting unit)) (w : world) : world :=
  {| currentLanguage := currentLanguage w; files := files w;
     requests := requests w; trace := trace w; detached := calls |}.

(** What becomes of a call nobody awaits once it has run as far as it can:
    it is kept while it waits, its rejection is reported (whether Node then
    ends the process depends on its version and flags; nothing below
    depends on it), its value is dropped. *)
Definition park (o : outcome unit) (w : world) : world :=
  match o with
  | Done (Ok _) => w
  | Done (Err msg) => log (EvRejected msg) w
  | Waiting s => set_detached (detached w ++ [s]) w
  end.

(** [exec p w] runs [p] until it returns, throws or has to wait: the
    synchronous stretch of an [async] call.  A detached call runs its own
    first stretch before its caller goes on. *)
Fixpoint exec {A : Type} (p : prog A) (w : world) : outcome A * world :=
  match p with
  | Ret a => (Done (Ok a), w)
  | Throw msg => (Done (Err msg), w)
  | Post text lang k => (Waiting (OnPost (requests w) text lang k), issue text lang w)
  | Sleep ms k => (Waiting (OnSleep ms k), log (EvSleep ms) w)
  | GetLang k => exec (k (currentLanguage w)) w
  | SetLang l k => exec k (set_language l w)
  | ReadFile path k => exec (k (read_file (files w) path)) (log (EvRead path) w)
  | WriteFile path content k => exec k (write_file path content w)
  | Detach p' k => let (o, w') := exec p' w in exec k (park o w')
  end.

Section Run.

(** The provider: what it answers to the request with a given number. *)
Variable provider : nat -> string -> string -> option string.

(** [run p w] runs [p] to its end, every request and timer it awaits
    completing before anything else happens. *)
Fixpoint run {A : Type} (p : prog A) (w : world) : result A * world :=
  match p with
  | Ret a => (Ok a, w)
  | Throw msg => (Err msg, w)
  | Post text lang k =>
      let answer := provider (requests w) text lang in
      run (k answer) (log (EvResponse (requests w) answer) (issue text lang w))
  | Sleep ms k => run k (log (EvSleep ms) w)
  | GetLang k => run (k (currentLanguage w)) w
  | SetLang l k => run k (set_language l w)
  | ReadFile path k => run (k (read_file (files w) path)) (log (EvRead path) w)
  | WriteFile path content k => run k (write_file path content w)
  | Detach p' k => let (o, w') := exec p' w in run k (park o w')
  end.

(** A waiting call goes on when its answer arrives or its timer fires. *)
Definition resume (s : waiting unit) (w : world) : outcome unit * world :=
  match s with
  | OnPost id text lang k =>
      let answer := provider id text lang in
      exec (k answer) (log (EvResponse id answer) w)
  | OnSleep ms k => exec k w
  end.

(** The event loop: while calls are waiting, one of them, chosen by the
    order in which answers and timers arrive, goes on until it waits again
    or ends. *)
Variable arrival : nat -> nat.

Definition take_waiting (i : nat) (w : world) : option (waiting unit * world) :=
  match nth_error (detached w) i with
  | None => None
  | Some s =>
      Some (s, set_detached (firstn i (detached w) ++ skipn (S i) (detached w)) w)
  end.

Fixpoint event_loop (fuel : nat) (tick : nat) (w : world) : world :=
  match fuel with
  | O => w
  | S fuel' =>
      match detached w with
      | [] => w
      | _ :: _ =>
          match take_waiting (arrival tick mod List.length (detached w)) w with
          | None => w
          | Some (s, w') =>
              let (o, w'') := resume s w' in
              event_loop fuel' (S tick) (park o w'')
          end
      end
  end.

End Run.

Definition initial_world (fs : list (string * string)) : world :=
  {| currentLanguage := ""; files := fs; requests := 0; trace := [];
     detached := [] |}.

(** ** Loading the source

    [loadLanguageSource(languageSourcePath, ext)], lines 58-72, called once
    at the top of the module with the extension of the source path; the
    module ends there when it throws.  [path.resolve] is taken from the
    runtime; a file that cannot be parsed or loaded throws. *)

Section Startup.

Context (cdc : codec) (path_resolve : string -> string -> string)
        (projectRoot : string).

Definition source_not_found (absolutePath : string) : string :=
  "Arquivo de origem não encontrado: " ++ absolutePath.

Definition unsupported_source (ext : string) : string :=
  "Formato de arquivo não suportado: " ++ ext.

Definition loadLanguageSource (languageSourcePath ext : string) : prog value :=
  let absolutePath := path_resolve projectRoot languageSourcePath in
  ReadFile absolutePath (fun content =>
    match content with
    | None => Throw (source_not_found absolutePath)
    | Some text =>
        if ext =? ".json" then
          match JSON_parse cdc text with
          | Some source => Ret source
          | None => Throw ("cannot load " ++ absolutePath)
          end
        else if ext =? ".ts" then
          match require_default cdc text with
          | Some source => Ret source
          | None => Throw ("cannot load " ++ absolutePath)
          end
        else Throw (unsupported_source ext)
    end).

End Startup.

(** * The notions the statements use

    What follows does not come from the program: the induction principle of
    the values, the well-formed trees, paths, the measures of a trace, the
    shape a translation keeps, and the trees and stubs of the examples. *)

(** ** Values and objects *)

Section ValueInd.
Variable P : value -> Prop.
Hypothesis Hundef : P VUndef.
Hypothesis Hnull : P VNull.
Hypothesis Hbool : forall b, P (VBool b).
Hypothesis Hnum : forall n, P (VNum n).
Hypothesis Hstr : forall s, P (VStr s).
Hypothesis Harr : forall l, Forall P l -> P (VArr l).
Hypothesis Hobj : forall o, Forall (fun kv => P (snd kv)) o -> P (VObj o).

Fixpoint value_nested_ind (v : value) : P v :=
  match v with
  | VUndef => Hundef
  | VNull => Hnull
  | VBool b => Hbool b
  | VNum n => Hnum n
  | VStr s => Hstr s
  | VArr l =>
      Harr l ((fix all (l : list value) : Forall P l :=
                 match l with
                 | [] => Forall_nil _
                 | x :: l' => Forall_cons _ (value_nested_ind x) (all l')
                 end) l)
  | VObj o =>
      Hobj o ((fix all (o : obj) : Forall (fun kv => P (snd kv)) o :=
                 match o with
                 | [] => Forall_nil _
                 | kv :: o' => Forall_cons _ (value_nested_ind (snd kv)) (all o')
                 end) o)
  end.
End ValueInd.

(** The enumeration order of the keys of an object: [k] may come before
    [k'] when they differ and either [k'] is not an array index or both are
    array indices, the one of [k] the smaller. *)
Definition key_before (k k' : string) : bool :=
  negb (k =? k') &&
  match array_index k, array_index k' with
  | Some n, Some n' => (n <? n')%N
  | Some _, None => true
  | None, Some _ => false
  | None, None => true
  end.

Fixpoint js_ordered (ks : list string) : bool :=
  match ks with
  | [] => true
  | k :: ks' => forallb (key_before k) ks' && js_ordered ks'
  end.

(** A well-formed value: every object in it lists its keys once, in
    enumeration order. *)
Fixpoint wf_value (v : value) : bool :=
  match v with
  | VArr l => forallb wf_value l
  | VObj o =>
      js_ordered (map fst o)
      && (fix all (o : obj) : bool :=
            match o with
            | [] => true
            | kv :: o' => wf_value (snd kv) && all o'
            end) o
  | _ => true
  end.

Definition wf_obj (o : obj) : bool := wf_value (VObj o).

(** ** The tree differ *)

(** What the differ keeps of a source value, given the value the target
    holds in its place. *)
Definition missing_value (sourceValue targetValue : value) : option value :=
  if is_plain_object sourceValue then
    match findMissing sourceValue targetValue with
    | [] => None
    | n => Some (VObj n)
    end
  else if nullish targetValue then Some sourceValue
  else None.

Definition diff_step (target : value) (missingKeys : obj) (kv : string * value) : obj :=
  match missing_value (snd kv) (target_value target (fst kv)) with
  | Some x => obj_set missingKeys (fst kv) x
  | None => missingKeys
  end.

(** Paths: the value a tree holds under a sequence of keys, and the value
    the differ reads in the target under the same keys. *)
Fixpoint at_path (v : value) (p : list string) : option value :=
  match p with
  | [] => Some v
  | k :: p' =>
      match v with
      | VObj o =>
          match get_own o k with
          | Some x => at_path x p'
          | None => None
          end
      | _ => None
      end
  end.



(** The partial target of the specification's scenario. *)
Definition partial_source : obj := [("a", VStr "X"); ("b", VStr "Y")].
Definition partial_target : value := VObj [("a", VStr "translated-X")].

(** ** Worlds and traces *)

(** [w] after [n] more requests and the events [evs]. *)
Definition extend (w : world) (n : nat) (evs : list event) : world :=
  {| currentLanguage := currentLanguage w; files := files w;
     requests := n + requests w; trace := trace w ++ evs;
     detached := detached w |}.

(** The events of [count] failed attempts, each followed by its pause, the
    first request numbered [id] and the first pause lasting [delay]. *)
Fixpoint failed_attempts (id count : nat) (delay : Z) (text lang : string)
    : list event :=
  match count with
  | O => []
  | S c =>
      EvPost id text lang :: EvResponse id None :: EvSleep delay
      :: failed_attempts (S id) c (delay * 2) text lang
  end.

Definition is_post (e : event) : bool :=
  match e with EvPost _ _ _ => true | _ => false end.

Definition is_answer (e : event) : bool :=
  match e with EvResponse _ (Some _) => true | _ => false end.

Definition invocations (evs : list event) : nat :=
  List.length (filter is_post evs).

Fixpoint sleeps (evs : list event) : list Z :=
  match evs with
  | [] => []
  | EvSleep ms :: evs' => ms :: sleeps evs'
  | _ :: evs' => sleeps evs'
  end.

(** [delay; 2 * delay; 4 * delay; ...], [count] pauses in all. *)
Fixpoint doubling (count : nat) (delay : Z) : list Z :=
  match count with
  | O => []
  | S c => delay :: doubling c (delay * 2)
  end.

(** A provider that fails the requests numbered [first], ..., [first + n - 2]
    and answers [translated] to the next one. *)
Definition succeeds_on (provider : nat -> string -> string -> option string)
    (first n : nat) (text lang translated : string) : Prop :=
  (forall i, i < n - 1 -> provider (first + i) text lang = None)
  /\ provider (first + (n - 1)) text lang = Some translated.

Definition always_fails (provider : nat -> string -> string -> option string)
    (text lang : string) : Prop :=
  forall id, provider id text lang = None.

(** A stub that fails its first two requests. *)
Definition third_time_lucky (id : nat) (text lang : string) : option string :=
  if (id <? 2)%nat then None else Some (lang ++ ":" ++ text)%string.

Definition never_answers (id : nat) (text lang : string) : option string := None.

(** ** Translated trees *)

Definition answers (evs : list event) : nat :=
  List.length (filter is_answer evs).

(** The loop of [translateNestedObject], with the object built so far. *)
Definition translate_entries (desiredLanguage : string) : obj -> obj -> prog value :=
  fix loop (es : obj) (translatedObj : obj) {struct es} : prog value :=
    match es with
    | [] => Ret (VObj translatedObj)
    | (key, v') :: es' =>
        t <- translate_value desiredLanguage v' ;;
        loop es' (obj_set translatedObj key t)
    end.

(** [v'] has the shape of [v]: the same keys in the same order at every
    level, arrays of the same length; every string of [v] that the
    translator reaches (the value of a key, an element of an array) is
    replaced by an answer of the provider to it, everything else is the
    same. *)
Definition item_translation (answered : string -> string -> Prop) (x x' : value) : Prop :=
  match x with
  | VStr s => exists s', x' = VStr s' /\ answered s s'
  | _ => x' = x
  end.

Fixpoint translation_of (answered : string -> string -> Prop) (v v' : value) : Prop :=
  match v with
  | VStr s => exists s', v' = VStr s' /\ answered s s'
  | VArr l => exists l', v' = VArr l' /\ Forall2 (item_translation answered) l l'
  | VObj o =>
      exists o', v' = VObj o' /\
      (fix entries (o o' : obj) {struct o} : Prop :=
         match o, o' with
         | [], [] => True
         | (k, x) :: r, (k', x') :: r' =>
             k = k' /\ translation_of answered x x' /\ entries r r'
         | _, _ => False
         end) o o'
  | _ => v' = v
  end.

Definition translation_entries (answered : string -> string -> Prop) : obj -> obj -> Prop :=
  fix entries (o o' : obj) {struct o} : Prop :=
    match o, o' with
    | [], [] => True
    | (k, x) :: r, (k', x') :: r' =>
        k = k' /\ translation_of answered x x' /\ entries r r'
    | _, _ => False
    end.

(** [s'] is what the provider answers to some request for [s] in [lang]. *)
Definition answered (provider : nat -> string -> string -> option string)
    (lang : string) (s s' : string) : Prop :=
  exists id, provider id s lang = Some s'.

Definition is_string (v : value) : bool :=
  match v with VStr _ => true | _ => false end.

(** The strings the translator sends: the string values of keys, at any
    depth, and the string elements of array values. *)
Fixpoint string_leaves (v : value) : nat :=
  match v with
  | VStr _ => 1
  | VArr l => List.length (filter is_string l)
  | VObj o =>
      (fix sum (o : obj) : nat :=
         match o with
         | [] => 0
         | kv :: o' => string_leaves (snd kv) + sum o'
         end) o
  | _ => 0
  end.

Definition string_leaves_entries : obj -> nat :=
  fix sum (o : obj) : nat :=
    match o with
    | [] => 0
    | kv :: o' => string_leaves (snd kv) + sum o'
    end.

(** A value that is neither a string, nor an array, nor an object. *)
Definition is_scalar (v : value) : bool :=
  match v with
  | VUndef | VNull | VBool _ | VNum _ => true
  | _ => false
  end.

(** A provider that answers every request. *)
Definition answering (tr : nat -> string -> string -> string)
    : nat -> string -> string -> option string :=
  fun id text lang => Some (tr id text lang).

Definition is_failure (e : event) : bool :=
  match e with EvResponse _ None => true | _ => false end.

Definition failures (evs : list event) : nat :=
  List.length (filter is_failure evs).

(** A failure in the trace is a request the provider has failed. *)
Definition genuine (provider : nat -> string -> string -> option string)
    (e : event) : Prop :=
  match e with
  | EvResponse id None => exists text lang, provider id text lang = None
  | _ => True
  end.

(** The events of [n] requests, each with its response. *)
Definition sound (provider : nat -> string -> string -> option string)
    (n : nat) (evs : list event) : Prop :=
  invocations evs = n
  /\ invocations evs = answers evs + failures evs
  /\ Forall (genuine provider) evs.

(** What a run adds to the world: [n] requests and the events [evs], and,
    when the program returns [a], [post a evs]. *)
Definition run_adds {A : Type} (provider : nat -> string -> string -> option string)
    (p : prog A) (w : world) (post : A -> list event -> Prop) : Prop :=
  exists n evs,
    snd (run provider p w) = extend w n evs
    /\ sound provider n evs
    /\ match fst (run provider p w) with
       | Ok a => post a evs
       | Err _ => True
       end.

(** The translator on a well-formed value: the shape is kept, one answer is
    received for every string sent. *)
Definition translates (provider : nat -> string -> string -> option string)
    (lang : string) (v : value) : Prop :=
  forall w, wf_value v = true ->
    run_adds provider (translate_value lang v) w
      (fun v' evs => translation_of (answered provider lang) v v'
                     /\ answers evs = string_leaves v).

Definition returns {A : Type} (provider : nat -> string -> string -> option string)
    (p : prog A) (w : world) : Prop :=
  exists a, fst (run provider p w) = Ok a.

(** The tree of the specification's end-to-end scenario, and a stub that
    answers every request. *)
Definition scenario_source : obj :=
  [("greeting", VStr "Hello"); ("nums", VArr [VNum 1; VNum 2; VNum 3]);
   ("nested", VObj [("a", VStr "Yes")])].

Definition echo (id : nat) (text lang : string) : string :=
  (lang ++ ":" ++ text)%string.

(** The entries the differ keeps, in the order of the source. *)
Definition diff_entries (target : value) (es : obj) : obj :=
  flat_map
    (fun kv =>
       match missing_value (snd kv) (target_value target (fst kv)) with
       | Some x => [(fst kv, x)]
       | None => []
       end) es.

(** ** The derived calendar field and what is persisted *)

(** The value [daysForLocale] returns, given the translation of its fifth
    field. *)
Definition calendar_locale_of (rt : intl) (localeName : string) (today : value) : value :=
  let localeCode := if localeName =? "lzh" then "zh" else localeName in
  VObj [("monthNames",
         VArr (map (fun month =>
                      VStr (format_month rt localeCode "long" (Date_UTC 2021 month 2)))
                   (range 12)));
        ("monthNamesShort",
         VArr (map (fun month =>
                      VStr (format_month rt localeCode "short" (Date_UTC 2021 month 2)))
                   (range 12)));
        ("dayNames",
         VArr (map (fun day =>
                      VStr (format_weekday rt localeCode "long" (Date_UTC 2021 5 day)))
                   (range 7)));
        ("dayNamesShort",
         VArr (map (fun day =>
                      VStr (format_weekday rt localeCode "short" (Date_UTC 2021 5 day)))
                   (range 7)));
        ("today", today)].

(** The text written for a tree, by the extension. *)
Definition persisted (cdc : codec) (ext : string) (modifiedData : obj) : string :=
  if ext =? ".json" then JSON_stringify cdc (VObj modifiedData)
  else ts_content cdc modifiedData.

(** [{ ...data }] *)
Definition copy_of (data : obj) : obj := spread (VObj data) (VObj []).

(** *** A runtime for the examples

    A runtime whose time zone is UTC and whose formatter knows the English
    names only, and a codec that writes a value as its string conversion
    and reads nothing back. *)
Definition english_weekday (format : string) (d : Z) : string :=
  if format =? "long" then
    nth (Z.to_nat d)
      ["Sunday"; "Monday"; "Tuesday"; "Wednesday"; "Thursday"; "Friday"; "Saturday"] ""
  else nth (Z.to_nat d) ["Sun"; "Mon"; "Tue"; "Wed"; "Thu"; "Fri"; "Sat"] "".

Definition english_month (format : string) (m : Z) : string :=
  if format =? "long" then
    nth (Z.to_nat m)
      ["January"; "February"; "March"; "April"; "May"; "June"; "July"; "August";
       "September"; "October"; "November"; "December"] ""
  else
    nth (Z.to_nat m)
      ["Jan"; "Feb"; "Mar"; "Apr"; "May"; "Jun"; "Jul"; "Aug"; "Sep"; "Oct"; "Nov";
       "Dec"] "".

Definition utc_english : intl :=
  {| utc_offset := 0;
     weekday_name := fun _ => english_weekday;
     month_name := fun _ => english_month |}.

(** The same runtime three hours west of UTC. *)
Definition brt_english : intl :=
  {| utc_offset := (-10800000)%Z;
     weekday_name := fun _ => english_weekday;
     month_name := fun _ => english_month |}.

Definition stub_codec : codec :=
  {| JSON_stringify := to_string;
     JSON_parse := fun _ => None;
     require_default := fun _ => None |}.

(** ** The target file of a locale *)

(** What [translateAndSaveNestedObject] finds in the target file: the empty
    tree when there is no file, nothing when the file cannot be loaded. *)
Definition existing_of (cdc : codec) (cfg : config) (w : world) (filePath : string)
    : option value :=
  match read_file (files w) filePath with
  | None => Some (VObj [])
  | Some content =>
      if ext cfg =? ".json" then JSON_parse cdc content
      else require_default cdc content
  end.

(** A source tree with the calendar field, and a configuration for it. *)
Definition calendar_source : obj :=
  [("title", VStr "Agenda"); ("calendar_locale", VObj [("today", VStr "Hoje")])].

Definition calendar_config : config :=
  {| outputLanguages := ["en"; "es"]; languageSource := calendar_source;
     outputDir := "out"; ext := ".ts" |}.

(** A JSON source of one string. *)
Definition json_config : config :=
  {| outputLanguages := ["es"]; languageSource := [("greeting", VStr "Hello")];
     outputDir := "out"; ext := ".json" |}.

(** A source with a nested tree and a target in which one of the nested
    keys is translated already. *)
Definition nested_source : obj :=
  [("menu", VObj [("open", VStr "Open"); ("close", VStr "Close")])].

Definition nested_existing : value :=
  VObj [("menu", VObj [("open", VStr "Abrir")])].

Definition nested_config : config :=
  {| outputLanguages := ["es"]; languageSource := nested_source;
     outputDir := "out"; ext := ".json" |}.

(** A codec that finds the tree [v] in any file. *)
Definition reading (v : value) (stringify : value -> string) : codec :=
  {| JSON_stringify := stringify;
     JSON_parse := fun _ => Some v;
     require_default := fun _ => Some v |}.

(** ** Reading a literal back

    Modelled from the ECMAScript grammar: the value of a string literal in
    single or double quotes, or of a template literal without substitution.
    [cooked template close s] is the value of the characters [s] that follow
    the opening delimiter, [s] ending with the closing delimiter [close].
    A backslash starts an escape sequence or a line continuation; a line
    terminator ends a quoted string abnormally and is part of a template,
    where a carriage return, alone or before a line feed, counts as a line
    feed; [${] in a template starts a substitution, and the text is then
    not a literal.  The escape sequences written with digits (octal,
    hexadecimal, Unicode) are left out: a text with one of them is not
    read. *)
Definition cr : ascii := "013"%char.

Inductive escape : Type :=
| EscChar (c : ascii)
| EscLineContinuation
| EscOther.

Definition escape_of (c : ascii) : escape :=
  if Ascii.eqb c "n" then EscChar nl
  else if Ascii.eqb c "r" then EscChar cr
  else if Ascii.eqb c "t" then EscChar "009"
  else if Ascii.eqb c "b" then EscChar "008"
  else if Ascii.eqb c "f" then EscChar "012"
  else if Ascii.eqb c "v" then EscChar "011"
  else if (Ascii.eqb c nl || Ascii.eqb c cr)%bool then EscLineContinuation
  else if (Ascii.eqb c "x" || Ascii.eqb c "u")%bool then EscOther
  else match digit_of c with
       | Some _ => EscOther
       | None => EscChar c
       end.

Definition starts_with (c : ascii) (s : string) : bool :=
  match s with
  | String c' _ => Ascii.eqb c' c
  | EmptyString => false
  end.

Fixpoint cooked (template : bool) (close : ascii) (s : string) : option string :=
  match s with
  | EmptyString => None
  | String c rest =>
      if Ascii.eqb c close then
        match rest with EmptyString => Some EmptyString | String _ _ => None end
      else if Ascii.eqb c backslash then
        match rest with
        | EmptyString => None
        | String e rest' =>
            match escape_of e with
            | EscChar x => option_map (String x) (cooked template close rest')
            | EscLineContinuation =>
                match rest' with
                | String e' rest'' =>
                    if (Ascii.eqb e cr && Ascii.eqb e' nl)%bool
                    then cooked template close rest''
                    else cooked template close rest'
                | EmptyString => None
                end
            | EscOther => None
            end
        end
      else if Ascii.eqb c nl then
        if template then option_map (String nl) (cooked template close rest) else None
      else if Ascii.eqb c cr then
        if template then
          match rest with
          | String c' rest' =>
              if Ascii.eqb c' nl
              then option_map (String nl) (cooked template close rest')
              else option_map (String nl) (cooked template close rest)
          | EmptyString => None
          end
        else None
      else if (template && Ascii.eqb c "$" && starts_with "{" rest)%bool then None
      else option_map (String c) (cooked template close rest)
  end.

Definition parse_literal (text : string) : option string :=
  match text with
  | EmptyString => None
  | String q body =>
      if Ascii.eqb q backtick then cooked true backtick body
      else if (Ascii.eqb q squote || Ascii.eqb q dquote)%bool then cooked false q body
      else None
  end.

(** What is read back from what [formatValue] produces for a string. *)
Definition read_back (cdc : codec) (s : string) (key : string) : option string :=
  match formatValue cdc (VStr s) key with
  | VStr text => parse_literal text
  | _ => None
  end.

(** Two lines, the second with a word between backticks; a path with
    backslashes; a message with a placeholder. *)
Definition two_lines : string :=
  ("Run" ++ str1 nl ++ str1 backtick ++ "npm start" ++ str1 backtick)%string.

Definition windows_path : string :=
  ("C:" ++ str1 backslash ++ "temp")%string.

Definition placeholder : string := "It's ${count}".

(** The strings [formatValue] has no trouble with. *)
Fixpoint no_substitution (s : string) : bool :=
  match s with
  | EmptyString => true
  | String c rest =>
      negb (Ascii.eqb c "$" && starts_with "{" rest) && no_substitution rest
  end.

Definition plain (s : string) : bool :=
  negb (includes backslash s) && negb (includes cr s) && no_substitution s
  && negb (includes nl s && includes backtick s).

(** ** Further notions *)

(** A target in which the differ finds nothing: a falsy value (no file
    content to speak of) or the empty object. *)
Definition blank (target : value) : Prop :=
  truthy target = false \/ target = VObj [].

(** The names under which every object finds a member of [Object.prototype]:
    a lookup [target[key]] with one of them never gives [undefined], and an
    own property of that name hides a built-in ([hasOwnProperty]) or is not
    created by an assignment ([__proto__]).  The lookup of the model reads
    own properties only; what is stated of a key that an object lacks is
    stated of keys outside this list. *)
Definition object_prototype_names : list string :=
  ["constructor"; "__defineGetter__"; "__defineSetter__"; "hasOwnProperty";
   "__lookupGetter__"; "__lookupSetter__"; "isPrototypeOf";
   "propertyIsEnumerable"; "toString"; "valueOf"; "__proto__"; "toLocaleString"].

Definition inherited (k : string) : bool :=
  existsb (String.eqb k) object_prototype_names.

(** A tree none of whose keys, at any depth, is such a name; the elements
    of an array are not looked at. *)
Fixpoint own_keys (v : value) : bool :=
  match v with
  | VObj o =>
      (fix all (o : obj) : bool :=
         match o with
         | [] => true
         | kv :: o' => negb (inherited (fst kv)) && own_keys (snd kv) && all o'
         end) o
  | _ => true
  end.

Definition own_keys_entries : obj -> bool :=
  fix all (o : obj) : bool :=
    match o with
    | [] => true
    | kv :: o' => negb (inherited (fst kv)) && own_keys (snd kv) && all o'
    end.

(** The differ looks into objects only: wherever it looks up a key of the
    source, the target is an object, or a falsy value, which it does not
    look into.  A string, an array, a number or [true] in the place of a
    nested tree has the members of its own prototype. *)
Fixpoint object_targets (source target : value) : bool :=
  match source with
  | VObj es =>
      (negb (truthy target) || is_plain_object target)
      && (fix all (es : obj) : bool :=
            match es with
            | [] => true
            | kv :: es' =>
                object_targets (snd kv) (target_value target (fst kv)) && all es'
            end) es
  | _ => true
  end.

(** A value without an empty nested tree: every object in it, below arrays
    excepted, has a key. *)
Fixpoint leafy (v : value) : bool :=
  match v with
  | VObj o =>
      match o with [] => false | _ :: _ => true end
      && (fix all (o : obj) : bool :=
            match o with
            | [] => true
            | kv :: o' => leafy (snd kv) && all o'
            end) o
  | _ => true
  end.

Definition leafy_entries : obj -> bool :=
  fix all (o : obj) : bool :=
    match o with
    | [] => true
    | kv :: o' => leafy (snd kv) && all o'
    end.

(** A value none of whose leaves is [null] or [undefined]; the elements of
    an array are not looked at. *)
Fixpoint solid (v : value) : bool :=
  match v with
  | VUndef | VNull => false
  | VObj o =>
      (fix all (o : obj) : bool :=
         match o with
         | [] => true
         | kv :: o' => solid (snd kv) && all o'
         end) o
  | _ => true
  end.

Definition solid_entries : obj -> bool :=
  fix all (o : obj) : bool :=
    match o with
    | [] => true
    | kv :: o' => solid (snd kv) && all o'
    end.

(** The translation of the end-to-end scenario by a stub that prefixes the
    locale. *)
Definition scenario_translated : obj :=
  [("greeting", VStr "es:Hello"); ("nums", VArr [VNum 1; VNum 2; VNum 3]);
   ("nested", VObj [("a", VStr "es:Yes")])].

(** [s'] is [s] with the locale [es] in front. *)
Definition prefixed (s s' : string) : Prop := s' = ("es:" ++ s)%string.

(** The strings the translator sends for a value, in the order in which it
    reaches them. *)
Definition item_strings (l : list value) : list string :=
  flat_map (fun x => match x with VStr s => [s] | _ => [] end) l.

Fixpoint strings_of (v : value) : list string :=
  match v with
  | VStr s => [s]
  | VArr l => item_strings l
  | VObj o =>
      (fix all (o : obj) : list string :=
         match o with
         | [] => []
         | kv :: o' => (strings_of (snd kv) ++ all o')%list
         end) o
  | _ => []
  end.

Definition strings_of_entries : obj -> list string :=
  fix all (o : obj) : list string :=
    match o with
    | [] => []
    | kv :: o' => (strings_of (snd kv) ++ all o')%list
    end.

(** The requests among the events, and the requests for the strings [l] in
    their order, the first numbered [id]. *)
Definition posted (evs : list event) : list (nat * string * string) :=
  flat_map (fun e => match e with
                     | EvPost id text lang => [(id, text, lang)]
                     | _ => []
                     end) evs.

Fixpoint requests_for (id : nat) (lang : string) (l : list string)
    : list (nat * string * string) :=
  match l with
  | [] => []
  | s :: l' => (id, s, lang) :: requests_for (S id) lang l'
  end.

(** Requests and their answers. *)
Definition is_exchange (e : event) : bool :=
  match e with
  | EvPost _ _ _ | EvResponse _ _ => true
  | _ => false
  end.

(** What a program adds to the world when it does nothing but send the
    strings [l], in their order, the first request numbered [id]. *)
Definition exchange_of (lang : string) (id : nat) (l : list string)
    (evs : list event) : Prop :=
  posted evs = requests_for id lang l /\ forallb is_exchange evs = true.

(** A program that sends the strings [l], each answered, and returns. *)
Definition sends {A : Type} (tr : nat -> string -> string -> string)
    (lang : string) (p : prog A) (l : list string) : Prop :=
  forall w, exists a evs,
    run (answering tr) p w = (Ok a, extend w (List.length l) evs)
    /\ exchange_of lang (requests w) l evs.

(** A program that returns without an effect; [a] is what it returns when
    [good] holds. *)
Definition quiet {A : Type} (provider : nat -> string -> string -> option string)
    (p : prog A) (good : Prop) (a : A) : Prop :=
  forall w, exists a', run provider p w = (Ok a', w) /\ (good -> a' = a).

(** No array of the tree holds two strings: the requests of the translator
    are then made one after the other. *)
Fixpoint serial (v : value) : bool :=
  match v with
  | VArr l => (List.length (item_strings l) <=? 1)%nat
  | VObj o =>
      (fix all (o : obj) : bool :=
         match o with
         | [] => true
         | kv :: o' => serial (snd kv) && all o'
         end) o
  | _ => true
  end.

(** The events of the default call of the adapter when the three requests
    fail. *)
Definition three_failures (id : nat) (text lang : string) : list event :=
  (failed_attempts id 2 1000 text lang
   ++ [EvPost (id + 2) text lang; EvResponse (id + 2) None])%list.






(** A project whose paths are resolved by concatenation. *)
Definition join_path (root path : string) : string := (root ++ "/" ++ path)%string.

(** The target file of a locale, as [translateAllKeys] names it. *)
Definition target_path (cfg : config) (language : string) : string :=
  (outputDir cfg ++ "/" ++ language ++ ".ts")%string.

(** The events of a locale that is translated from nothing: the language is
    set, the target file is looked for, the strings that are missing against
    the empty tree are requested and answered, the file is written. *)
Definition locale_part (cdc : codec) (cfg : config)
    (tr : nat -> string -> string -> string) (language : string)
    (part : list event) : Prop :=
  exists id translated evs,
    translation_entries (answered (answering tr) language)
      (findMissingKeys (languageSource cfg) (VObj [])) translated
    /\ exchange_of language id
         (strings_of (VObj (findMissingKeys (languageSource cfg) (VObj [])))) evs
    /\ part
       = (EvSetLang language :: EvRead (target_path cfg language)
          :: evs
          ++ [EvWrite (target_path cfg language)
                (persisted cdc (ext cfg) translated)])%list.

(** A source of two strings and a configuration of two locales for it. *)
Definition two_locales : config :=
  {| outputLanguages := ["en"; "es"];
     languageSource := [("greeting", VStr "Hello"); ("bye", VStr "Bye")];
     outputDir := "out"; ext := ".json" |}.

(** * Properties *)

Open Scope list_scope.

(** ** Objects *)
Lemma wf_obj_cons k v o :
  wf_obj ((k, v) :: o) = true ->
  forallb (key_before k) (keys o) = true /\ wf_value v = true /\ wf_obj o = true.
Proof.
  unfold wf_obj; simpl. fold (keys o).
  rewrite !andb_true_iff. intros [[H1 H2] [H3 H4]].
  repeat split; auto.
Qed.

Lemma key_before_neq k k' : key_before k k' = true -> k <> k'.
Proof.
  unfold key_before. rewrite andb_true_iff, negb_true_iff.
  intros [H _]. now apply String.eqb_neq.
Qed.

Lemma get_own_not_in o k : ~ In k (keys o) -> get_own o k = None.
Proof.
  induction o as [|[k' v] o IH]; simpl; intros H; [reflexivity|].
  destruct (String.eqb_spec k' k) as [->|Hne].
  - exfalso. apply H. now left.
  - apply IH. intros Hin. apply H. now right.
Qed.

Lemma get_own_in o k v : get_own o k = Some v -> In (k, v) o.
Proof.
  induction o as [|[k' v'] o IH]; simpl; [discriminate|].
  destruct (String.eqb_spec k' k) as [->|Hne].
  - intros [= ->]. now left.
  - intros H. right. now apply IH.
Qed.

Lemma ordered_head_fresh k o :
  forallb (key_before k) (keys o) = true -> get_own o k = None.
Proof.
  intros H. apply get_own_not_in. intros Hin.
  rewrite forallb_forall in H. apply H in Hin.
  now apply key_before_neq in Hin.
Qed.

Lemma wf_get_own o k v :
  wf_obj o = true -> get_own o k = Some v -> wf_value v = true.
Proof.
  induction o as [|[k' v'] o IH]; simpl; [discriminate|].
  intros Hwf. apply wf_obj_cons in Hwf. destruct Hwf as (_ & Hv & Ho).
  destruct (k' =? k).
  - now intros [= <-].
  - now apply IH.
Qed.

(** *** Assignment to a property *)

Lemma set_index_same n k v o : get_own (set_index n k v o) k = Some v.
Proof.
  induction o as [|[k' v'] o IH]; simpl.
  - now rewrite String.eqb_refl.
  - destruct (String.eqb_spec k' k) as [->|Hne]; simpl.
    + now rewrite String.eqb_refl.
    + destruct (array_index k') as [n'|]; [destruct (n <? n')%N|]; simpl;
        rewrite ?String.eqb_refl; auto.
      apply String.eqb_neq in Hne. now rewrite Hne.
Qed.

Lemma set_index_other n k v o k0 :
  k0 <> k -> get_own (set_index n k v o) k0 = get_own o k0.
Proof.
  intros Hk. assert (Hk' : (k =? k0) = false) by (apply String.eqb_neq; congruence).
  induction o as [|[k' v'] o IH]; simpl.
  - now rewrite Hk'.
  - destruct (String.eqb_spec k' k) as [->|Hne]; simpl.
    + now rewrite Hk'.
    + destruct (array_index k') as [n'|]; [destruct (n <? n')%N|]; simpl;
        rewrite ?Hk'; auto.
      now rewrite IH.
Qed.

Lemma set_named_same k v o : get_own (set_named k v o) k = Some v.
Proof.
  induction o as [|[k' v'] o IH]; simpl.
  - now rewrite String.eqb_refl.
  - destruct (String.eqb_spec k' k) as [->|Hne]; simpl.
    + now rewrite String.eqb_refl.
    + apply String.eqb_neq in Hne. now rewrite Hne.
Qed.

Lemma set_named_other k v o k0 :
  k0 <> k -> get_own (set_named k v o) k0 = get_own o k0.
Proof.
  intros Hk. assert (Hk' : (k =? k0) = false) by (apply String.eqb_neq; congruence).
  induction o as [|[k' v'] o IH]; simpl.
  - now rewrite Hk'.
  - destruct (String.eqb_spec k' k) as [->|Hne]; simpl.
    + now rewrite Hk'.
    + now rewrite IH.
Qed.

Lemma get_own_set_same o k v : get_own (obj_set o k v) k = Some v.
Proof.
  unfold obj_set. destruct (array_index k).
  - apply set_index_same.
  - apply set_named_same.
Qed.

Lemma get_own_set_other o k v k0 :
  k0 <> k -> get_own (obj_set o k v) k0 = get_own o k0.
Proof.
  unfold obj_set. destruct (array_index k).
  - apply set_index_other.
  - apply set_named_other.
Qed.

Lemma findMissing_fold entries target :
  findMissing (VObj entries) target = fold_left (diff_step target) entries [].
Proof.
  simpl. generalize (@nil (string * value)).
  induction entries as [|[key sv] es IH]; intros acc; simpl; [reflexivity|].
  unfold diff_step, missing_value; simpl.
  destruct (is_plain_object sv).
  - destruct (findMissing sv (target_value target key)); simpl; apply IH.
  - destruct (nullish (target_value target key)); apply IH.
Qed.

Lemma fold_diff_get target es : forall acc k,
  NoDup (keys es) ->
  get_own (fold_left (diff_step target) es acc) k =
  match get_own es k with
  | Some sv =>
      match missing_value sv (target_value target k) with
      | Some x => Some x
      | None => get_own acc k
      end
  | None => get_own acc k
  end.
Proof.
  induction es as [|[k1 sv1] es IH]; intros acc k Hnd; simpl; [reflexivity|].
  simpl in Hnd. inversion Hnd as [|? ? Hnotin Hnd']; subst.
  rewrite IH by assumption.
  destruct (String.eqb_spec k1 k) as [->|Hne].
  - rewrite (get_own_not_in es k Hnotin).
    unfold diff_step; simpl.
    destruct (missing_value sv1 (target_value target k)).
    + apply get_own_set_same.
    + reflexivity.
  - assert (Hacc : get_own (diff_step target acc (k1, sv1)) k = get_own acc k).
    { unfold diff_step; simpl. destruct (missing_value sv1 (target_value target k1)); auto.
      apply get_own_set_other. congruence. }
    rewrite Hacc. reflexivity.
Qed.

Lemma js_ordered_NoDup ks : js_ordered ks = true -> NoDup ks.
Proof.
  induction ks as [|k ks IH]; simpl; [constructor|].
  rewrite andb_true_iff. intros [H1 H2]. constructor; auto.
  intros Hin. rewrite forallb_forall in H1. apply H1 in Hin.
  now apply key_before_neq in Hin.
Qed.

Lemma wf_obj_NoDup o : wf_obj o = true -> NoDup (keys o).
Proof.
  unfold wf_obj; simpl. rewrite andb_true_iff. intros [H _].
  now apply js_ordered_NoDup.
Qed.

(** One level: what the diff holds at a key. *)
Lemma findMissingKeys_get source target k :
  wf_obj source = true ->
  get_own (findMissingKeys source target) k =
  match get_own source k with
  | Some sv => missing_value sv (target_value target k)
  | None => None
  end.
Proof.
  intros Hwf. unfold findMissingKeys. rewrite findMissing_fold.
  rewrite fold_diff_get by now apply wf_obj_NoDup.
  destruct (get_own source k) as [sv|]; [|reflexivity].
  destruct (missing_value sv (target_value target k)); reflexivity.
Qed.


Lemma findMissing_obj v t : is_plain_object v = false -> findMissing v t = [].
Proof. destruct v; simpl; congruence. Qed.





(** ** Runs *)

Lemma extend_0 w : extend w 0 [] = w.
Proof. destruct w; unfold extend; simpl. now rewrite app_nil_r. Qed.

Lemma extend_extend w n evs m evs' :
  extend (extend w n evs) m evs' = extend w (n + m) (evs ++ evs').
Proof.
  unfold extend; simpl. f_equal; [lia | now rewrite app_assoc].
Qed.

Lemma log_extend e w : log e w = extend w 0 [e].
Proof. reflexivity. Qed.

Lemma issue_extend text lang w :
  issue text lang w = extend w 1 [EvPost (requests w) text lang].
Proof. reflexivity. Qed.

Section RunFacts.
Variable provider : nat -> string -> string -> option string.

Lemma run_bind {A B} (m : prog A) (f : A -> prog B) : forall w,
  run provider (bind m f) w =
  match run provider m w with
  | (Ok a, w') => run provider (f a) w'
  | (Err msg, w') => (Err msg, w')
  end.
Proof.
  induction m; intros w; simpl; auto.
  destruct (exec m1 w). apply IHm2.
Qed.

(** The loop of the adapter, entered with [left] iterations to go. *)
Lemma api_attempts_success : forall n left attempt retryCount delay text lang w t,
  1 <= n -> n <= left -> attempt + left = S retryCount ->
  succeeds_on provider (requests w) n text lang t ->
  run provider (api_attempts left attempt retryCount delay text lang) w =
  (Ok (VStr t),
   extend w n (failed_attempts (requests w) (n - 1) delay text lang
               ++ [EvPost (requests w + (n - 1)) text lang;
                   EvResponse (requests w + (n - 1)) (Some t)])).
Proof.
  induction n as [|n IH];
    intros left attempt retryCount delay text lang w t Hn Hle Hinv [Hfail Hok];
    [lia|].
  destruct left as [|left]; [lia|]. simpl.
  destruct n as [|n].
  - simpl in Hok. rewrite Nat.add_0_r in Hok. rewrite Hok. simpl.
    rewrite log_extend, issue_extend, extend_extend. simpl.
    now rewrite Nat.add_0_r.
  - pose proof (Hfail 0 ltac:(lia)) as H0. rewrite Nat.add_0_r in H0. rewrite H0.
    assert (Hlt : (attempt <? retryCount)%nat = true) by (apply Nat.ltb_lt; lia).
    rewrite Hlt. simpl.
    rewrite !log_extend, issue_extend, !extend_extend.
    rewrite (IH left (S attempt) retryCount (delay * 2)%Z text lang _ t); try lia.
    + rewrite extend_extend. simpl. rewrite Nat.sub_0_r.
      replace (S (requests w + n)) with (requests w + S n) by lia.
      reflexivity.
    + simpl. split.
      * intros i Hi. replace (S (requests w) + i) with (requests w + S i) by lia.
        apply Hfail. lia.
      * replace (S (requests w) + (S n - 1)) with (requests w + (S (S n) - 1)) by lia.
        exact Hok.
Qed.

Lemma api_attempts_S left attempt retryCount delay text lang :
  api_attempts (S left) attempt retryCount delay text lang =
  Post text lang (fun response =>
    match response with
    | Some translated => Ret (VStr translated)
    | None =>
        if (attempt <? retryCount)%nat then
          Sleep delay (api_attempts left (S attempt) retryCount (delay * 2) text lang)
        else Throw (persistent_error text retryCount)
    end).
Proof. reflexivity. Qed.

Lemma api_attempts_failure : forall left attempt retryCount delay text lang w,
  attempt + left = retryCount ->
  always_fails provider text lang ->
  run provider (api_attempts (S left) attempt retryCount delay text lang) w =
  (Err (persistent_error text retryCount),
   extend w (S left)
     (failed_attempts (requests w) left delay text lang
      ++ [EvPost (requests w + left) text lang;
          EvResponse (requests w + left) None])).
Proof.
  induction left as [|left IH]; intros attempt retryCount delay text lang w Hinv Hfail;
    rewrite api_attempts_S; cbn [run]; rewrite Hfail.
  - assert (Hlt : (attempt <? retryCount)%nat = false) by (apply Nat.ltb_ge; lia).
    rewrite Hlt. simpl. rewrite log_extend, issue_extend, extend_extend. simpl.
    now rewrite Nat.add_0_r.
  - assert (Hlt : (attempt <? retryCount)%nat = true) by (apply Nat.ltb_lt; lia).
    rewrite Hlt. cbn [run].
    rewrite !log_extend, issue_extend, !extend_extend.
    rewrite (IH (S attempt) retryCount (delay * 2)%Z text lang) by (auto; lia).
    rewrite extend_extend. simpl.
    replace (S (requests w + left)) with (requests w + S left) by lia.
    reflexivity.
Qed.

Lemma sleeps_app a b : sleeps (a ++ b) = (sleeps a ++ sleeps b)%list.
Proof.
  induction a as [|e a IH]; simpl; [reflexivity|].
  destruct e; simpl; rewrite IH; reflexivity.
Qed.

Lemma sleeps_failed id count delay text lang :
  sleeps (failed_attempts id count delay text lang) = doubling count delay.
Proof.
  revert id delay. induction count as [|c IH]; intros id delay; simpl; [reflexivity|].
  now rewrite IH.
Qed.

Lemma invocations_app a b : invocations (a ++ b) = invocations a + invocations b.
Proof. unfold invocations. now rewrite filter_app, length_app. Qed.

Lemma invocations_failed id count delay text lang :
  invocations (failed_attempts id count delay text lang) = count.
Proof.
  revert id delay. induction count as [|c IH]; intros id delay; simpl; [reflexivity|].
  unfold invocations in *. simpl. now rewrite IH.
Qed.

Lemma doubling_nth count delay i :
  i < count -> nth i (doubling count delay) 0%Z = (delay * 2 ^ Z.of_nat i)%Z.
Proof.
  revert delay i. induction count as [|c IH]; intros delay i Hi; [lia|].
  destruct i as [|i]; simpl doubling; cbn [nth].
  - simpl. lia.
  - rewrite IH by lia. rewrite Nat2Z.inj_succ, Z.pow_succ_r by lia. lia.
Qed.
End RunFacts.

(** With no attempt allowed the loop is not entered: no request is made and
    the call returns [undefined]. *)
Lemma apiSingleCall_no_attempt provider text lang delay w :
  run provider (apiSingleCall_with text lang 0 delay) w = (Ok VUndef, w).
Proof. reflexivity. Qed.

(** The number in the message is the decimal numeral of the count. *)
Lemma string_of_nat_decimal n :
  option_map Nat.of_uint (NilZero.uint_of_string (string_of_nat n)) = Some n.
Proof.
  unfold string_of_nat. rewrite NilZero.usu.
  - cbn [option_map]. now rewrite DecimalNat.Unsigned.of_to.
  - pose proof (DecimalNat.Unsigned.to_of (Nat.to_uint n)) as H.
    rewrite DecimalNat.Unsigned.of_to in H. rewrite H.
    apply DecimalFacts.unorm_nonnil.
Qed.

(** C4.  The adapter makes up to [retryCount] attempts, three by default
    with a first pause of 1000 ms.  When the provider fails the first
    [n - 1] requests and answers the [n]-th, [n <= retryCount], the call
    returns that answer after exactly [n] requests, with a pause before each
    retry, the pauses being [delay], [2 * delay], [4 * delay], ....  When
    the provider fails every request, the call throws, after exactly
    [retryCount] requests, the error whose message holds the text between
    double quotes and the number of attempts, [retryCount] in decimal. *)
Theorem apiSingleCall_retries provider text lang retryCount delay w :
  (forall n t,
     1 <= n -> n <= retryCount ->
     succeeds_on provider (requests w) n text lang t ->
     let evs := failed_attempts (requests w) (n - 1) delay text lang
                ++ [EvPost (requests w + (n - 1)) text lang;
                    EvResponse (requests w + (n - 1)) (Some t)] in
     run provider (apiSingleCall_with text lang retryCount delay) w
     = (Ok (VStr t), extend w n evs)
     /\ invocations evs = n
     /\ sleeps evs = doubling (n - 1) delay)
  /\ (1 <= retryCount -> always_fails provider text lang ->
      let evs := failed_attempts (requests w) (retryCount - 1) delay text lang
                 ++ [EvPost (requests w + (retryCount - 1)) text lang;
                     EvResponse (requests w + (retryCount - 1)) None] in
      run provider (apiSingleCall_with text lang retryCount delay) w
      = (Err ("Erro persistente ao tentar traduzir " ++ str1 dquote ++ text
              ++ str1 dquote ++ " após " ++ string_of_nat retryCount
              ++ " tentativas.")%string,
         extend w retryCount evs)
      /\ option_map Nat.of_uint (NilZero.uint_of_string (string_of_nat retryCount))
         = Some retryCount
      /\ invocations evs = retryCount
      /\ sleeps evs = doubling (retryCount - 1) delay)
  /\ apiSingleCall text lang = apiSingleCall_with text lang 3 1000.
Proof.
  split; [|split; [|reflexivity]].
  - intros n t Hn Hle Hok evs. subst evs. split; [|split].
    + unfold apiSingleCall_with.
      apply api_attempts_success; auto; lia.
    + rewrite invocations_app, invocations_failed. unfold invocations; simpl. lia.
    + rewrite sleeps_app, sleeps_failed. simpl. now rewrite app_nil_r.
  - intros Hrc Hfail evs. subst evs. split; [|split; [|split]].
    + unfold apiSingleCall_with. destruct retryCount as [|rc]; [lia|].
      simpl Nat.sub. rewrite Nat.sub_0_r.
      change ("Erro persistente ao tentar traduzir " ++ str1 dquote ++ text
              ++ str1 dquote ++ " após " ++ string_of_nat (S rc)
              ++ " tentativas.")%string
        with (persistent_error text (S rc)).
      apply api_attempts_failure; auto; lia.
    + apply string_of_nat_decimal.
    + rewrite invocations_app, invocations_failed. unfold invocations; simpl. lia.
    + rewrite sleeps_app, sleeps_failed. simpl. now rewrite app_nil_r.
Qed.

(** The theorem at the default call: a stub that fails twice is asked three
    times, with pauses of 1000 and 2000 ms; a stub that never answers is
    asked three times and the call throws the message with the text and the
    numeral 3. *)
Lemma apiSingleCall_retries_witness :
  (succeeds_on third_time_lucky 0 3 "Hello" "es" "es:Hello"
   /\ run third_time_lucky (apiSingleCall "Hello" "es") (initial_world [])
      = (Ok (VStr "es:Hello"),
         extend (initial_world []) 3
           [EvPost 0 "Hello" "es"; EvResponse 0 None; EvSleep 1000;
            EvPost 1 "Hello" "es"; EvResponse 1 None; EvSleep 2000;
            EvPost 2 "Hello" "es"; EvResponse 2 (Some "es:Hello")]))
  /\ (always_fails never_answers "Hello" "es"
      /\ fst (run never_answers (apiSingleCall "Hello" "es") (initial_world []))
         = Err ("Erro persistente ao tentar traduzir " ++ str1 dquote ++ "Hello"
                ++ str1 dquote ++ " após 3 tentativas.")%string).
Proof.
  assert (H1 : succeeds_on third_time_lucky 0 3 "Hello" "es" "es:Hello").
  { split; [|reflexivity]. intros i Hi. simpl in Hi.
    destruct i as [|[|i]]; [reflexivity|reflexivity|lia]. }
  assert (H2 : always_fails never_answers "Hello" "es") by (intros id; reflexivity).
  split; split; [exact H1 | | exact H2 | ].
  - apply (apiSingleCall_retries third_time_lucky "Hello" "es" 3 1000
             (initial_world [])); [lia | lia | exact H1].
  - pose proof (apiSingleCall_retries never_answers "Hello" "es" 3 1000
                  (initial_world [])) as (_ & Hf & _).
    destruct (Hf ltac:(lia) H2) as (Hrun & _).
    unfold apiSingleCall. rewrite Hrun. reflexivity.
Defined.

Lemma translate_value_obj lang es :
  translate_value lang (VObj es) = translate_entries lang es [].
Proof. reflexivity. Qed.

Lemma translation_of_obj ans o v' :
  translation_of ans (VObj o) v' = (exists o', v' = VObj o' /\ translation_entries ans o o').
Proof. reflexivity. Qed.


Lemma answers_app a b : answers (a ++ b) = answers a + answers b.
Proof. unfold answers. now rewrite filter_app, length_app. Qed.

Section TranslatorFacts.
Variable provider : nat -> string -> string -> option string.

Lemma failures_app a b : failures (a ++ b) = failures a + failures b.
Proof. unfold failures. now rewrite filter_app, length_app. Qed.

Lemma sound_nil : sound provider 0 [].
Proof. repeat split. constructor. Qed.

Lemma sound_app n a m b :
  sound provider n a -> sound provider m b -> sound provider (n + m) (a ++ b).
Proof.
  intros (H1 & H2 & H3) (H4 & H5 & H6). repeat split.
  - rewrite invocations_app. lia.
  - rewrite invocations_app, answers_app, failures_app. lia.
  - apply Forall_app. auto.
Qed.

Lemma run_adds_ret {A} (a : A) w (post : A -> list event -> Prop) :
  post a [] -> run_adds provider (Ret a) w post.
Proof.
  intros H. exists 0, []. simpl. rewrite extend_0. split; [reflexivity|].
  split; [apply sound_nil | exact H].
Qed.

Lemma run_adds_bind {A B} (m : prog A) (f : A -> prog B) w
    (P : A -> list event -> Prop) (Q : B -> list event -> Prop) :
  run_adds provider m w P ->
  (forall a e1 w', P a e1 ->
     run_adds provider (f a) w' (fun b e2 => Q b (e1 ++ e2))) ->
  run_adds provider (bind m f) w Q.
Proof.
  intros (n & e1 & Hw & Hn & Hp) Hf.
  unfold run_adds. rewrite run_bind.
  destruct (run provider m w) as [[a|msg] w1]; simpl in *.
  - destruct (Hf a e1 w1 Hp) as (n2 & e2 & Hw2 & Hn2 & Hq).
    exists (n + n2), (e1 ++ e2). subst w1.
    rewrite Hw2, extend_extend.
    split; [reflexivity|]. split; [apply sound_app; auto | exact Hq].
  - exists n, e1. auto.
Qed.

Lemma run_adds_weaken {A} (p : prog A) w (P Q : A -> list event -> Prop) :
  run_adds provider p w P -> (forall a evs, P a evs -> Q a evs) ->
  run_adds provider p w Q.
Proof.
  intros (n & evs & Hw & Hn & Hp) HPQ. exists n, evs.
  split; [exact Hw|]. split; [exact Hn|].
  destruct (fst (run provider p w)); auto.
Qed.

Lemma returns_bind {A B} (m : prog A) (f : A -> prog B) w :
  returns provider m w -> (forall a w', returns provider (f a) w') ->
  returns provider (bind m f) w.
Proof.
  intros [a Ha] Hf. unfold returns. rewrite run_bind.
  destruct (run provider m w) as [[a'|msg] w1]; simpl in *; [apply Hf|discriminate].
Qed.

(** *** The adapter *)

Lemma api_attempts_adds : forall left attempt retryCount delay text lang w,
  attempt + left = S retryCount -> 1 <= left ->
  run_adds provider (api_attempts left attempt retryCount delay text lang) w
    (fun v evs => exists t, v = VStr t /\ answered provider lang text t
                            /\ answers evs = 1).
Proof.
  induction left as [|left IH]; intros attempt retryCount delay text lang w Hinv Hleft;
    [lia|].
  unfold run_adds. cbn [api_attempts run].
  destruct (provider (requests w) text lang) as [t|] eqn:Hans.
  - exists 1, [EvPost (requests w) text lang; EvResponse (requests w) (Some t)].
    simpl. split; [now rewrite log_extend, issue_extend, extend_extend|]. split.
    + unfold sound; simpl. repeat split. repeat constructor.
    + exists t. repeat split. now exists (requests w).
  - destruct (attempt <? retryCount)%nat eqn:Hlt.
    + apply Nat.ltb_lt in Hlt. cbn [run].
      destruct (IH (S attempt) retryCount (delay * 2)%Z text lang
                  (log (EvSleep delay)
                     (log (EvResponse (requests w) None) (issue text lang w))))
        as (n & evs & Hw & Hs & Hp); [lia | lia |].
      exists (1 + n),
        ([EvPost (requests w) text lang; EvResponse (requests w) None; EvSleep delay]
         ++ evs).
      split.
      * rewrite Hw. rewrite !log_extend, issue_extend, !extend_extend. reflexivity.
      * split.
        -- apply sound_app; [|exact Hs]. unfold sound; simpl. repeat split.
           repeat constructor. simpl. eauto.
        -- destruct (fst (run provider _ _)); [|exact I].
           destruct Hp as (t & Hv & Ha & Hc). exists t. repeat split; auto.
    + exists 1, [EvPost (requests w) text lang; EvResponse (requests w) None].
      simpl. split; [now rewrite log_extend, issue_extend, extend_extend|].
      split; [|exact I].
      unfold sound; simpl. repeat split. repeat constructor. simpl. eauto.
Qed.

Lemma apiSingleCall_adds text lang w :
  run_adds provider (apiSingleCall text lang) w
    (fun v evs => exists t, v = VStr t /\ answered provider lang text t
                            /\ answers evs = 1).
Proof. apply api_attempts_adds; lia. Qed.

(** *** The translator *)

Lemma translate_items_adds lang l : forall w,
  run_adds provider (mapM (translate_item lang) l) w
    (fun l' evs => Forall2 (item_translation (answered provider lang)) l l'
                   /\ answers evs = List.length (filter is_string l)).
Proof.
  induction l as [|x l IH]; intros w; cbn [mapM].
  - apply run_adds_ret. split; [constructor|reflexivity].
  - eapply run_adds_bind with
      (P := fun x' evs => item_translation (answered provider lang) x x'
                          /\ answers evs = if is_string x then 1 else 0).
    + destruct x; try (apply run_adds_ret; split; reflexivity).
      cbn [translate_item]. eapply run_adds_weaken; [apply apiSingleCall_adds|].
      intros a evs (t & -> & Ha & Hc). split; [|exact Hc]. exists t. auto.
    + intros x' e1 w1 [Hx Hc1].
      eapply run_adds_bind; [apply IH|].
      intros l' e2 w2 [Hl Hc2]. apply run_adds_ret.
      rewrite app_nil_r, answers_app, Hc1, Hc2. split; [now constructor|].
      simpl. destruct (is_string x); reflexivity.
Qed.

Lemma set_last acc k v :
  forallb (fun k' => key_before k' k) (keys acc) = true ->
  obj_set acc k v = acc ++ [(k, v)].
Proof.
  unfold obj_set. induction acc as [|[k' v'] acc IH]; simpl.
  - destruct (array_index k); reflexivity.
  - rewrite andb_true_iff. intros [Hk Hacc]. specialize (IH Hacc).
    unfold key_before in Hk. rewrite andb_true_iff, negb_true_iff in Hk.
    destruct Hk as [Hne Hord]. rewrite Hne.
    destruct (array_index k) as [n|].
    + destruct (array_index k') as [n'|]; [|discriminate].
      apply N.ltb_lt in Hord.
      assert (Hnlt : (n <? n')%N = false) by (apply N.ltb_ge; lia).
      rewrite Hnlt. now rewrite IH.
    + now rewrite IH.
Qed.

Lemma js_ordered_middle a k r :
  js_ordered (a ++ k :: r) = true ->
  forallb (fun k' => key_before k' k) a = true.
Proof.
  induction a as [|k' a IH]; simpl; [reflexivity|].
  rewrite !andb_true_iff. intros [Hall Hrest]. split; [|auto].
  rewrite forallb_forall in Hall. apply Hall. apply in_or_app. right. now left.
Qed.

Lemma wf_obj_parts o :
  wf_obj o = true ->
  js_ordered (keys o) = true /\ Forall (fun kv => wf_value (snd kv) = true) o.
Proof.
  induction o as [|[k v] o IH]; intros Hwf.
  - split; [reflexivity|constructor].
  - pose proof Hwf as Hwf'. apply wf_obj_cons in Hwf'.
    destruct Hwf' as (Hk & Hv & Ho). destruct (IH Ho) as [Hord Hall].
    split.
    + simpl. now rewrite Hk, Hord.
    + constructor; auto.
Qed.

Lemma translate_entries_adds lang es : forall acc w,
  Forall (fun kv => translates provider lang (snd kv)) es ->
  Forall (fun kv => wf_value (snd kv) = true) es ->
  js_ordered (keys acc ++ keys es) = true ->
  run_adds provider (translate_entries lang es acc) w
    (fun v' evs => exists es', v' = VObj (acc ++ es')
                   /\ translation_entries (answered provider lang) es es'
                   /\ answers evs = string_leaves_entries es).
Proof.
  induction es as [|[k x] es IH]; intros acc w Htr Hwf Hord; cbn [translate_entries].
  - apply run_adds_ret. exists []. rewrite app_nil_r. repeat split.
  - inversion Htr as [|? ? Hx Htr']; subst. inversion Hwf as [|? ? Hwx Hwf']; subst.
    eapply run_adds_bind; [apply Hx; exact Hwx|].
    intros t e1 w1 [Ht Hc1]. cbn beta.
    simpl in Hord.
    rewrite set_last by (eapply js_ordered_middle; exact Hord).
    eapply run_adds_weaken.
    + apply IH; auto. unfold keys in *. rewrite map_app. simpl.
      now rewrite <- app_assoc.
    + intros v' e2 (es' & -> & Hes & Hc2). exists ((k, t) :: es').
      rewrite <- app_assoc. simpl. repeat split; auto.
      rewrite answers_app, Hc1, Hc2. reflexivity.
Qed.

Lemma translate_value_adds lang v : translates provider lang v.
Proof.
  induction v using value_nested_ind; intros w Hwf;
    try (apply run_adds_ret; split; reflexivity).
  - cbn [translate_value]. eapply run_adds_weaken; [apply apiSingleCall_adds|].
    intros a evs (t & -> & Ha & Hc). split; [|exact Hc]. exists t. auto.
  - cbn [translate_value]. eapply run_adds_bind; [apply translate_items_adds|].
    intros l' e1 w1 [Hl Hc]. apply run_adds_ret. rewrite app_nil_r.
    split; [|exact Hc]. exists l'. auto.
  - rewrite translate_value_obj.
    apply wf_obj_parts in Hwf. destruct Hwf as [Hord Hall].
    eapply run_adds_weaken; [apply translate_entries_adds; auto|].
    intros v' evs (es' & -> & Hes & Hc). split; [|exact Hc].
    rewrite translation_of_obj. exists es'. auto.
Qed.
End TranslatorFacts.

Lemma translation_entries_keys ans o : forall o',
  translation_entries ans o o' -> keys o' = keys o.
Proof.
  induction o as [|[k x] o IH]; intros [|[k' x'] o']; simpl; try tauto.
  intros (-> & _ & H). f_equal. now apply IH.
Qed.

Lemma sound_answering tr n evs :
  sound (answering tr) n evs -> answers evs = n.
Proof.
  intros (Hn & Hsum & Hall).
  assert (Hf : failures evs = 0).
  { clear Hn Hsum. induction Hall as [|e evs He _ IH]; [reflexivity|].
    unfold failures in *. simpl.
    destruct e as [| id [a|] | | | | |]; simpl; auto.
    destruct He as (text & lang & He). discriminate. }
  lia.
Qed.

Section Answering.
Variable tr : nat -> string -> string -> string.

Lemma apiSingleCall_returns text lang w :
  returns (answering tr) (apiSingleCall text lang) w.
Proof. eexists. reflexivity. Qed.

Lemma translate_items_returns lang l : forall w,
  returns (answering tr) (mapM (translate_item lang) l) w.
Proof.
  induction l as [|x l IH]; intros w; cbn [mapM].
  - eexists; reflexivity.
  - apply returns_bind.
    + destruct x; eexists; reflexivity.
    + intros x' w1. apply returns_bind; [apply IH|].
      intros l' w2. eexists; reflexivity.
Qed.

Lemma translate_entries_returns lang es : forall acc w,
  Forall (fun kv => forall w, returns (answering tr) (translate_value lang (snd kv)) w) es ->
  returns (answering tr) (translate_entries lang es acc) w.
Proof.
  induction es as [|[k x] es IH]; intros acc w Hall; cbn [translate_entries].
  - eexists; reflexivity.
  - inversion Hall; subst. apply returns_bind; auto.
Qed.

Lemma translate_value_returns lang v : forall w,
  returns (answering tr) (translate_value lang v) w.
Proof.
  induction v using value_nested_ind; intros w; try (eexists; reflexivity).
  - cbn [translate_value]. apply returns_bind; [apply translate_items_returns|].
    intros; eexists; reflexivity.
  - rewrite translate_value_obj. now apply translate_entries_returns.
Qed.
End Answering.

(** The translator on the tree of an object. *)
Lemma translateNestedObject_adds provider o lang w :
  wf_obj o = true ->
  run_adds provider (translateNestedObject o lang) w
    (fun t evs => translation_entries (answered provider lang) o t
                  /\ answers evs = string_leaves (VObj o)).
Proof.
  intros Hwf. unfold translateNestedObject.
  eapply run_adds_bind; [apply translate_value_adds; exact Hwf|].
  intros v e1 w1 [Hv Hc]. apply run_adds_ret. rewrite app_nil_r.
  rewrite translation_of_obj in Hv. destruct Hv as (o' & -> & Ho'). auto.
Qed.

(** C7.  The translator preserves the structure of a well-formed tree: when
    it returns, its output has the keys of its input, in the same order, at
    every level; an array keeps its length and the place of its elements,
    the strings among them replaced by answers of the provider to them, the
    others kept; a value that is not a string, an array or an object is
    returned as it is, and the world is the same: no request was made.
    With a provider that answers, the translator does return. *)
Theorem translateNestedObject_preserves_structure provider o lang w :
  wf_obj o = true ->
  (forall t w',
     run provider (translateNestedObject o lang) w = (Ok t, w') ->
     keys t = keys o
     /\ translation_of (answered provider lang) (VObj o) (VObj t))
  /\ (forall v, is_scalar v = true ->
        run provider (translate_value lang v) w = (Ok v, w))
  /\ (forall tr, exists t w',
        run (answering tr) (translateNestedObject o lang) w = (Ok t, w')).
Proof.
  intros Hwf. split; [|split].
  - intros t w' Hrun.
    destruct (translateNestedObject_adds provider o lang w Hwf)
      as (n & evs & _ & _ & Hpost).
    rewrite Hrun in Hpost. simpl in Hpost. destruct Hpost as [Hrel _].
    split.
    + eapply translation_entries_keys; eauto.
    + rewrite translation_of_obj. exists t. auto.
  - intros v Hv. destruct v; try discriminate; reflexivity.
  - intros tr. unfold translateNestedObject.
    destruct (translate_value_returns tr lang (VObj o) w) as [v Hv].
    rewrite run_bind.
    destruct (run (answering tr) (translate_value lang (VObj o)) w) as [r w1].
    simpl in Hv. subst r. simpl. eauto.
Qed.

(** The theorem at the tree of the end-to-end scenario: the two strings are
    replaced, the array of numbers is kept. *)
Lemma translateNestedObject_preserves_structure_witness :
  wf_obj scenario_source = true
  /\ keys [("greeting", VStr "es:Hello"); ("nums", VArr [VNum 1; VNum 2; VNum 3]);
           ("nested", VObj [("a", VStr "es:Yes")])]
     = keys scenario_source.
Proof.
  split; [reflexivity|].
  apply (translateNestedObject_preserves_structure (answering echo)
           scenario_source "es" (initial_world []) eq_refl)
    with (w' := snd (run (answering echo)
                       (translateNestedObject scenario_source "es")
                       (initial_world []))).
  reflexivity.
Defined.

(** ** The diff is a tree in the order of the source *)

Lemma wf_obj_intro o :
  js_ordered (keys o) = true ->
  Forall (fun kv => wf_value (snd kv) = true) o ->
  wf_obj o = true.
Proof.
  intros Hord Hall. unfold wf_obj; simpl. fold (keys o). rewrite Hord. simpl.
  clear Hord. induction Hall as [|kv o Hkv _ IH]; simpl; [reflexivity|].
  rewrite Hkv. simpl. exact IH.
Qed.

Lemma js_ordered_drop a k r :
  js_ordered (a ++ k :: r) = true -> js_ordered (a ++ r) = true.
Proof.
  induction a as [|k' a IH]; simpl.
  - rewrite andb_true_iff. tauto.
  - rewrite !andb_true_iff. intros [Hall Hrest]. split; [|auto].
    rewrite forallb_forall in *. intros x Hx. apply Hall.
    apply in_app_or in Hx. apply in_or_app. destruct Hx; [now left|right; now right].
Qed.

Lemma fold_diff_entries target es : forall acc,
  js_ordered (keys acc ++ keys es) = true ->
  fold_left (diff_step target) es acc = acc ++ diff_entries target es.
Proof.
  induction es as [|[k sv] es IH]; intros acc Hord; simpl.
  - now rewrite app_nil_r.
  - unfold diff_step at 2; simpl. simpl in Hord.
    destruct (missing_value sv (target_value target k)) as [x|].
    + rewrite set_last by (eapply js_ordered_middle; exact Hord).
      rewrite IH.
      * now rewrite <- app_assoc.
      * unfold keys in *. rewrite map_app. simpl. now rewrite <- app_assoc.
    + apply IH. eapply js_ordered_drop; eauto.
Qed.

Lemma diff_entries_keys target es k :
  In k (keys (diff_entries target es)) -> In k (keys es).
Proof.
  induction es as [|[k' sv] es IH]; simpl; [tauto|].
  unfold keys in *. rewrite map_app. intros Hin. apply in_app_or in Hin.
  destruct Hin as [Hin|Hin]; [|right; auto].
  destruct (missing_value sv (target_value target k')); simpl in Hin; [|tauto].
  destruct Hin; [now left|tauto].
Qed.

Lemma diff_entries_ordered target es :
  js_ordered (keys es) = true -> js_ordered (keys (diff_entries target es)) = true.
Proof.
  induction es as [|[k sv] es IH]; simpl; [reflexivity|].
  rewrite andb_true_iff. intros [Hall Hord]. specialize (IH Hord).
  destruct (missing_value sv (target_value target k)); simpl; [|exact IH].
  fold (keys (diff_entries target es)). rewrite IH, andb_true_r.
  rewrite forallb_forall in *. intros x Hx. apply Hall.
  eapply diff_entries_keys; eauto.
Qed.

Lemma findMissing_wf v :
  wf_value v = true -> forall target, wf_obj (findMissing v target) = true.
Proof.
  induction v using value_nested_ind; intros Hwf target; try reflexivity.
  rewrite findMissing_fold.
  apply wf_obj_parts in Hwf. destruct Hwf as [Hord Hall].
  rewrite fold_diff_entries by exact Hord. simpl.
  apply wf_obj_intro; [now apply diff_entries_ordered|].
  clear Hord. induction o as [|[k sv] o IHo]; simpl; [constructor|].
  inversion H as [|? ? Hsv Ho]; subst. inversion Hall as [|? ? Hwsv Hwo]; subst.
  simpl in *. apply Forall_app. split; [|auto].
  unfold missing_value.
  destruct (is_plain_object sv) eqn:Hobj.
  - specialize (Hsv Hwsv (target_value target k)).
    destruct (findMissing sv (target_value target k)) eqn:Hn; constructor; auto.
  - destruct (nullish (target_value target k)); constructor; auto.
Qed.

Lemma findMissingKeys_wf source target :
  wf_obj source = true -> wf_obj (findMissingKeys source target) = true.
Proof. intros H. now apply findMissing_wf. Qed.

Lemma findMissingKeys_entries source target :
  wf_obj source = true ->
  findMissingKeys source target = diff_entries target source.
Proof.
  intros Hwf. unfold findMissingKeys. rewrite findMissing_fold.
  apply wf_obj_parts in Hwf. destruct Hwf as [Hord _].
  now rewrite fold_diff_entries.
Qed.

(** ** Saving *)

Lemma daysForLocale_unfold rt localeName :
  daysForLocale rt localeName =
  GetLang (fun currentLanguage =>
    today <- apiSingleCall "Hoje" currentLanguage ;;
    Ret (calendar_locale_of rt localeName today)).
Proof. reflexivity. Qed.


Lemma run_write provider path content w :
  run provider (WriteFile path content (Ret tt)) w = (Ok tt, write_file path content w).
Proof. reflexivity. Qed.

Lemma run_save_tail provider cdc filePath ext modifiedData w :
  ext = ".json" \/ ext = ".ts" ->
  run provider
    (if ext =? ".json" then
       WriteFile filePath (JSON_stringify cdc (VObj modifiedData)) (Ret tt)
     else if ext =? ".ts" then
       WriteFile filePath (ts_content cdc modifiedData) (Ret tt)
     else Throw (unsupported_save ext)) w
  = (Ok tt, write_file filePath (persisted cdc ext modifiedData) w).
Proof. intros [-> | ->]; reflexivity. Qed.


(** The first stretch of [saveTranslations] and what follows the answer. *)
Lemma saveTranslations_exec rt cdc filePath data ext missingKeys w :
  ext = ".json" \/ ext = ".ts" ->
  if hasOwnProperty missingKeys "calendar_locale" then
    exists k,
      exec (saveTranslations rt cdc filePath data ext missingKeys) w
      = (Waiting (OnPost (requests w) "Hoje" (currentLanguage w) k),
         issue "Hoje" (currentLanguage w) w)
      /\ forall today w2,
           exec (k (Some today)) w2
           = (Done (Ok tt),
              write_file filePath
                (persisted cdc ext
                   (obj_set (copy_of data) "calendar_locale"
                      (calendar_locale_of rt (currentLanguage w) (VStr today))))
                w2)
  else
    exec (saveTranslations rt cdc filePath data ext missingKeys) w
    = (Done (Ok tt), write_file filePath (persisted cdc ext (copy_of data)) w).
Proof.
  intros Hext. unfold saveTranslations. fold (copy_of data).
  destruct (hasOwnProperty missingKeys "calendar_locale").
  - eexists. split.
    + cbn [bind exec daysForLocale apiSingleCall apiSingleCall_with api_attempts].
      reflexivity.
    + intros today w2. cbn [bind exec].
      destruct Hext as [-> | ->]; reflexivity.
  - cbn [bind exec]. destruct Hext as [-> | ->]; reflexivity.
Qed.

Lemma assign_all_append es : forall acc,
  js_ordered (keys acc ++ keys es) = true -> assign_all acc es = acc ++ es.
Proof.
  unfold assign_all.
  induction es as [|[k v] es IH]; intros acc Hord; simpl.
  - now rewrite app_nil_r.
  - simpl in Hord. rewrite set_last by (eapply js_ordered_middle; exact Hord).
    rewrite IH.
    + now rewrite <- app_assoc.
    + unfold keys in *. rewrite map_app. simpl. now rewrite <- app_assoc.
Qed.




(** ** The derived calendar *)

Lemma local_day_Date_UTC rt year month day :
  (- ms_per_day <= utc_offset rt < ms_per_day)%Z ->
  local_day rt (Date_UTC year month day)
  = (days_from_civil year (month + 1) day
     + (if utc_offset rt <? 0 then -1 else 0))%Z.
Proof.
  intros Hoff. unfold local_day, Date_UTC, ms_per_day in *.
  rewrite Z.add_comm, Z.div_add by lia. rewrite Z.add_comm. f_equal.
  destruct (Z.ltb_spec (utc_offset rt) 0).
  - symmetry. apply Z.div_unique with (r := (utc_offset rt + 86400000)%Z); lia.
  - apply Z.div_small. lia.
Qed.

(** C6 is broken by [getWeekNames], which formats the instants
    [Date.UTC(2021, 5, day)], for [day] from 0 to 6, in the time zone of the
    runtime.  The first of them is midnight UTC of 31 May 2021, a Monday:
    in a runtime at UTC, and in any east of it, the week of the derived
    calendar starts with the name of Monday, not with the Sunday the
    specification names; three hours west of UTC the same instant falls on
    the Sunday before and the week starts with Sunday.  [getMonthNames] takes
    the second day of each month and gives January first in both. *)
Lemma daysForLocale_week_starts_on_monday :
  match fst (run (answering echo) (daysForLocale utc_english "en")
               (set_language "en" (initial_world []))) with
  | Ok cal =>
      member (member cal "dayNames") "0" = VStr "Monday"
      /\ member (member cal "dayNames") "0"
         <> VStr (weekday_name utc_english "en" "long" 0)
      /\ member (member cal "monthNames") "0" = VStr "January"
      /\ match fst (run (answering echo) (daysForLocale brt_english "en")
                      (set_language "en" (initial_world []))) with
         | Ok west =>
             member (member west "dayNames") "0" = VStr "Sunday"
             /\ member (member west "monthNames") "0" = VStr "January"
         | Err _ => False
         end
  | Err _ => False
  end.
Proof.
  vm_compute. split; [reflexivity|]. split; [discriminate|].
  split; [reflexivity|]. split; reflexivity.
Qed.

(** The derived calendar in a runtime less than a day from UTC.  It holds,
    in this order: the twelve month names, January to December, long and
    short; the names, long and short, of seven consecutive days, the first
    being the day on which midnight UTC of 31 May 2021 falls in the time
    zone of the runtime, a Monday at UTC and east of it, a Sunday west of
    it; and the provider's translation of the text [Hoje].  The names are
    formatted for the locale, [lzh] replaced by [zh]; the request to the
    provider is made for the global current locale, which the only call of
    the function passes as [localeName], not replaced. *)
Theorem daysForLocale_calendar rt localeName provider today w :
  (- ms_per_day <= utc_offset rt < ms_per_day)%Z ->
  provider (requests w) "Hoje" (currentLanguage w) = Some today ->
  let localeCode := if localeName =? "lzh" then "zh" else localeName in
  let first := (if utc_offset rt <? 0 then 0 else 1)%Z in
  run provider (daysForLocale rt localeName) w
  = (Ok (VObj
           [("monthNames",
             VArr (map (fun m => VStr (month_name rt localeCode "long" m)) (range 12)));
            ("monthNamesShort",
             VArr (map (fun m => VStr (month_name rt localeCode "short" m)) (range 12)));
            ("dayNames",
             VArr (map (fun d => VStr (weekday_name rt localeCode "long"
                                         ((first + d) mod 7)%Z))
                       (range 7)));
            ("dayNamesShort",
             VArr (map (fun d => VStr (weekday_name rt localeCode "short"
                                         ((first + d) mod 7)%Z))
                       (range 7)));
            ("today", VStr today)]),
     extend w 1 [EvPost (requests w) "Hoje" (currentLanguage w);
                 EvResponse (requests w) (Some today)]).
Proof.
  intros Hoff Hans localeCode first.
  cbn [daysForLocale run]. fold localeCode.
  unfold apiSingleCall, apiSingleCall_with. cbn [api_attempts bind run].
  rewrite Hans. cbn [run].
  rewrite log_extend, issue_extend, extend_extend. cbn [Nat.add app].
  f_equal. f_equal. f_equal.
  change (range 12) with [0; 1; 2; 3; 4; 5; 6; 7; 8; 9; 10; 11]%Z.
  change (range 7) with [0; 1; 2; 3; 4; 5; 6]%Z.
  cbn [map]. unfold format_month, format_weekday.
  rewrite !local_day_Date_UTC by exact Hoff.
  subst first. destruct (utc_offset rt <? 0)%Z; reflexivity.
Qed.

(** The theorem at the Chinese literary locale in a runtime west of UTC:
    the names are asked for [zh] and the week starts on Sunday. *)
Lemma daysForLocale_calendar_witness :
  (- ms_per_day <= utc_offset brt_english < ms_per_day)%Z
  /\ answering echo 0 "Hoje" "lzh" = Some "lzh:Hoje"
  /\ snd (run (answering echo) (daysForLocale brt_english "lzh")
            (set_language "lzh" (initial_world [])))
     = extend (set_language "lzh" (initial_world [])) 1
         [EvPost 0 "Hoje" "lzh"; EvResponse 0 (Some "lzh:Hoje")].
Proof.
  assert (Hoff : (- ms_per_day <= utc_offset brt_english < ms_per_day)%Z)
    by (unfold ms_per_day; simpl; lia).
  split; [exact Hoff|]. split; [reflexivity|].
  rewrite (daysForLocale_calendar brt_english "lzh" (answering echo) "lzh:Hoje"
             (set_language "lzh" (initial_world [])) Hoff eq_refl).
  reflexivity.
Defined.

(** ** One locale *)

Lemma run_load_existing provider cdc cfg filePath w existing :
  existing_of cdc cfg w filePath = Some existing ->
  run provider (load_existing cdc cfg filePath) w
  = (Ok existing, extend w 0 [EvRead filePath]).
Proof.
  unfold existing_of, load_existing. cbn [run].
  destruct (read_file (files w) filePath) as [content|].
  - intros H. rewrite H. reflexivity.
  - intros [= <-]. reflexivity.
Qed.


(** The translator with a provider that answers: it returns and has asked
    once for every string. *)
Lemma translateNestedObject_returns tr o lang w :
  returns (answering tr) (translateNestedObject o lang) w.
Proof.
  unfold translateNestedObject. apply returns_bind.
  - apply translate_value_returns.
  - intros; eexists; reflexivity.
Qed.

Lemma translateNestedObject_answering tr o lang w :
  wf_obj o = true ->
  exists translated evs,
    run (answering tr) (translateNestedObject o lang) w
    = (Ok translated, extend w (string_leaves (VObj o)) evs)
    /\ translation_entries (answered (answering tr) lang) o translated.
Proof.
  intros Hwf.
  destruct (translateNestedObject_adds (answering tr) o lang w Hwf)
    as (n & evs & Hw & Hs & Hp).
  destruct (translateNestedObject_returns tr o lang w) as (t & Hrun).
  destruct (run (answering tr) (translateNestedObject o lang) w) as [r w'].
  cbn [fst snd] in *. subst r w'. destruct Hp as [Hrel Hc].
  apply sound_answering in Hs.
  exists t, evs. split; [|exact Hrel].
  f_equal. f_equal. congruence.
Qed.



Lemma keys_nil (o : obj) : keys o = [] -> o = [].
Proof. destruct o; [reflexivity|discriminate]. Qed.



(** ** The locale loop *)

Lemma park_trace_grows o w : exists r, trace (park o w) = trace w ++ r.
Proof.
  destruct o as [[u|msg]|s]; cbn [park].
  - exists []. now rewrite app_nil_r.
  - eexists. reflexivity.
  - exists []. now rewrite app_nil_r.
Qed.

Lemma exec_trace_grows {A} (p : prog A) : forall w,
  exists rest, trace (snd (exec p w)) = trace w ++ rest.
Proof.
  induction p; intros w; cbn [exec snd].
  - exists []. now rewrite app_nil_r.
  - exists []. now rewrite app_nil_r.
  - eexists. reflexivity.
  - eexists. reflexivity.
  - apply H.
  - destruct (IHp (set_language l w)) as [rest Hr]. rewrite Hr.
    eexists. cbn [trace set_language]. rewrite <- app_assoc. reflexivity.
  - destruct (H (read_file (files w) path) (log (EvRead path) w)) as [rest Hr].
    rewrite Hr. eexists. cbn [trace log]. rewrite <- app_assoc. reflexivity.
  - destruct (IHp (write_file path content w)) as [rest Hr]. rewrite Hr.
    eexists. cbn [trace write_file]. rewrite <- app_assoc. reflexivity.
  - destruct (IHp1 w) as [r1 Hr1]. destruct (exec p1 w) as [o w1]. cbn [snd] in Hr1.
    destruct (park_trace_grows o w1) as [r2 Hr2].
    destruct (IHp2 (park o w1)) as [r3 Hr3]. rewrite Hr3, Hr2, Hr1.
    eexists. rewrite <- !app_assoc. reflexivity.
Qed.

(** The event loop never takes an event back. *)
Lemma event_loop_trace_grows provider arrival fuel : forall tick w,
  exists rest, trace (event_loop provider arrival fuel tick w) = trace w ++ rest.
Proof.
  induction fuel as [|fuel IH]; intros tick w; cbn [event_loop].
  - exists []. now rewrite app_nil_r.
  - destruct (detached w) as [|s0 l] eqn:Hd.
    + exists []. now rewrite app_nil_r.
    + unfold take_waiting.
      destruct (nth_error (detached w) (arrival tick mod List.length (s0 :: l)))
        as [s|]; [|exists []; now rewrite app_nil_r].
      set (w' := set_detached _ w).
      assert (Hres : exists r, trace (snd (resume provider s w')) = trace w ++ r).
      { destruct s as [id text lang k|ms k]; cbn [resume].
        - destruct (exec_trace_grows (k (provider id text lang))
                      (log (EvResponse id (provider id text lang)) w')) as [r Hr].
          rewrite Hr. eexists. cbn [trace log]. subst w'. cbn [trace set_detached].
          rewrite <- app_assoc. reflexivity.
        - destruct (exec_trace_grows k w') as [r Hr]. rewrite Hr.
          eexists. subst w'. reflexivity. }
      destruct Hres as [r1 Hr1]. destruct (resume provider s w') as [o w''].
      cbn [snd] in Hr1.
      destruct (park_trace_grows o w'') as [r2 Hr2].
      destruct (IH (S tick) (park o w'')) as [r3 Hr3].
      rewrite Hr3, Hr2, Hr1. eexists. rewrite <- !app_assoc. reflexivity.
Qed.

Lemma event_loop_next provider arrival fuel tick w s :
  detached w = [s] ->
  event_loop provider arrival (S fuel) tick w
  = event_loop provider arrival fuel (S tick)
      (park (fst (resume provider s (set_detached [] w)))
            (snd (resume provider s (set_detached [] w)))).
Proof.
  intros H. cbn [event_loop]. rewrite H. cbn [List.length]. rewrite Nat.mod_1_r.
  unfold take_waiting. rewrite H. cbn [nth_error firstn skipn app].
  change (@nil (waiting unit) ++ []) with (@nil (waiting unit)).
  destruct (resume provider s (set_detached [] w)). reflexivity.
Qed.

(** C3 is broken by the call of [saveTranslations], which
    [translateAndSaveNestedObject] does not await.  With the calendar field
    among the missing keys the save waits for the provider before it
    writes, and the loop goes on meanwhile.  For the two locales [en] and
    [es], whatever the provider answers and in whatever order the answers
    arrive: the loop has set the language to [es], read the target file of
    [es] and sent the first request of [es] before anything is written for
    [en].  In the run shown, with answers arriving in the order of the
    requests, the file of [en] is written while [es] is being translated. *)
Theorem next_locale_starts_before_the_write rt cdc tr arrival fuel :
  (exists rest,
     trace (event_loop (answering tr) arrival (2 + fuel) 0
              (snd (exec (main rt cdc calendar_config) (initial_world []))))
     = [EvSetLang "en"; EvRead "out/en.ts";
        EvPost 0 "Agenda" "en"; EvResponse 0 (Some (tr 0 "Agenda" "en"));
        EvPost 1 "Hoje" "en"; EvResponse 1 (Some (tr 1 "Hoje" "en"));
        EvPost 2 "Hoje" "en";
        EvSetLang "es"; EvRead "out/es.ts"; EvPost 3 "Agenda" "es"]
       ++ rest)
  /\ map (fun e => match e with
                   | EvSetLang l => ("language " ++ l)%string
                   | EvWrite path _ => ("write " ++ path)%string
                   | _ => ""
                   end)
         (trace (event_loop (answering echo) (fun n => n) 8 0
                   (snd (exec (main utc_english stub_codec calendar_config)
                           (initial_world [])))))
     = ["language en"; ""; ""; ""; ""; ""; ""; "language es"; ""; ""; "";
        "write out/en.ts"; ""; ""; ""; ""; ""; "write out/es.ts"].
Proof.
  split; [|vm_compute; reflexivity].
  cbn [Nat.add].
  erewrite event_loop_next by reflexivity.
  erewrite event_loop_next by reflexivity.
  match goal with
  | |- exists rest, trace (event_loop ?p ?a ?f ?t ?w) = _ =>
      destruct (event_loop_trace_grows p a f t w) as [rest Hrest];
      exists rest; rewrite Hrest
  end.
  reflexivity.
Qed.

(** C9 is broken by [translateAllKeys], which names the target file
    [{locale}.ts] whatever the extension of the source.  For a JSON source
    the file read and written for [es] is [out/es.ts], and what is written
    there is JSON. *)
Theorem target_path_ignores_the_extension rt cdc tr :
  ext json_config = ".json"
  /\ trace (snd (run (answering tr) (translateAllKeys rt cdc json_config "es")
                   (initial_world [])))
     = [EvRead "out/es.ts";
        EvPost 0 "Hello" "es"; EvResponse 0 (Some (tr 0 "Hello" "es"));
        EvWrite "out/es.ts"
          (JSON_stringify cdc (VObj [("greeting", VStr (tr 0 "Hello" "es"))]))]
  /\ forall cfg desiredLanguage,
       translateAllKeys rt cdc cfg desiredLanguage
       = translateAndSaveNestedObject rt cdc cfg (languageSource cfg) desiredLanguage
           (outputDir cfg ++ "/" ++ desiredLanguage ++ ".ts")%string.
Proof. split; [reflexivity|]. split; reflexivity. Qed.

Lemma assign_all_other b : forall o k,
  ~ In k (keys b) -> get_own (assign_all o b) k = get_own o k.
Proof.
  unfold assign_all.
  induction b as [|[k' v] b IH]; intros o k Hk; simpl; [reflexivity|].
  rewrite IH by (intros Hin; apply Hk; now right).
  apply get_own_set_other. intros ->. apply Hk. now left.
Qed.

(** The merge keeps the value of a top-level key that the translated tree
    does not have. *)
Lemma spread_keeps_other_keys existing translated k :
  wf_obj existing = true -> ~ In k (keys translated) ->
  get_own (spread (VObj existing) (VObj translated)) k = get_own existing k.
Proof.
  intros Hwf Hk. unfold spread. cbn [own_entries].
  rewrite assign_all_other by exact Hk.
  apply wf_obj_parts in Hwf. destruct Hwf as [Hord _].
  rewrite (assign_all_append existing []) by exact Hord. reflexivity.
Qed.

(** C2 is broken by the merge [{ ...existingTranslations, ...translatedData }],
    which replaces a top-level key as a whole.  The target holds a
    translation of [menu.open]; the source has [menu.open] and [menu.close];
    the differ asks for [menu.close] only, and the merged tree, which is
    what is written, holds [menu.close] only: the translation of [menu.open]
    is lost. *)
Theorem merge_drops_nested_translation rt stringify tr :
  findMissingKeys nested_source nested_existing
  = [("menu", VObj [("close", VStr "Close")])]
  /\ at_path nested_existing ["menu"; "open"] = Some (VStr "Abrir")
  /\ at_path
       (VObj (spread nested_existing
                (VObj [("menu", VObj [("close", VStr (tr 0 "Close" "es"))])])))
       ["menu"; "open"]
     = None
  /\ trace (snd (run (answering tr)
                   (translateAllKeys rt (reading nested_existing stringify)
                      nested_config "es")
                   (initial_world [("out/es.ts", "")])))
     = [EvRead "out/es.ts";
        EvPost 0 "Close" "es"; EvResponse 0 (Some (tr 0 "Close" "es"));
        EvWrite "out/es.ts"
          (stringify (VObj [("menu", VObj [("close", VStr (tr 0 "Close" "es"))])]))].
Proof. repeat split. Qed.

(** ** The literals of the TypeScript module *)

Section Literals.

Local Open Scope string_scope.

Lemma replace_nl_id s : replace_all nl (str1 nl) s = s.
Proof.
  induction s as [|c s IH]; simpl; [reflexivity|].
  destruct (Ascii.eqb_spec c nl) as [->|Hne]; simpl; now rewrite IH.
Qed.

Lemma includes_cons x c s :
  includes x (String c s) = false -> Ascii.eqb c x = false /\ includes x s = false.
Proof. simpl. destruct (Ascii.eqb c x); [discriminate|auto]. Qed.

Lemma cooked_template s :
  includes backtick s = false -> includes backslash s = false ->
  includes cr s = false -> no_substitution s = true ->
  cooked true backtick (s ++ str1 backtick) = Some s.
Proof.
  induction s as [|c s IH]; intros Hbt Hbs Hcr Hsub; [reflexivity|].
  apply includes_cons in Hbt, Hbs, Hcr.
  destruct Hbt as [Hbt Hbt'], Hbs as [Hbs Hbs'], Hcr as [Hcr Hcr'].
  simpl in Hsub. apply andb_true_iff in Hsub. destruct Hsub as [Hd Hsub].
  specialize (IH Hbt' Hbs' Hcr' Hsub).
  cbn [append cooked]. rewrite Hbt, Hbs, Hcr.
  destruct (Ascii.eqb c nl) eqn:Hnl.
  - apply Ascii.eqb_eq in Hnl. subst c. now rewrite IH.
  - assert (Hs : starts_with "{" (s ++ str1 backtick) = starts_with "{" s)
      by (destruct s; reflexivity).
    rewrite Hs. cbn [andb]. apply negb_true_iff in Hd. rewrite Hd.
    now rewrite IH.
Qed.

Lemma cooked_escaped s :
  includes backslash s = false -> includes cr s = false ->
  no_substitution s = true ->
  cooked true backtick
    (replace_all backtick (str1 backslash ++ str1 backtick) s ++ str1 backtick)
  = Some s.
Proof.
  unfold str1. cbn [append].
  induction s as [|c s IH]; intros Hbs Hcr Hsub; [reflexivity|].
  apply includes_cons in Hbs, Hcr.
  destruct Hbs as [Hbs Hbs'], Hcr as [Hcr Hcr'].
  simpl in Hsub. apply andb_true_iff in Hsub. destruct Hsub as [Hd Hsub].
  specialize (IH Hbs' Hcr' Hsub).
  cbn [replace_all].
  destruct (Ascii.eqb c backtick) eqn:Hbt.
  - apply Ascii.eqb_eq in Hbt. subst c. cbn [append].
    change (cooked true backtick
              (String backslash (String backtick
                 (replace_all backtick (String backslash (String backtick "")) s
                  ++ String backtick ""))))
      with (option_map (String backtick)
              (cooked true backtick
                 (replace_all backtick (String backslash (String backtick "")) s
                  ++ String backtick ""))).
    now rewrite IH.
  - cbn [append cooked]. rewrite Hbt, Hbs, Hcr.
    destruct (Ascii.eqb c nl) eqn:Hnl.
    + apply Ascii.eqb_eq in Hnl. subst c. now rewrite IH.
    + assert (Hs : starts_with "{"
                     (replace_all backtick (String backslash (String backtick "")) s
                      ++ String backtick "")
                   = starts_with "{" s).
      { destruct s as [|c' s']; [reflexivity|].
        cbn [replace_all]. destruct (Ascii.eqb c' backtick) eqn:Hc'.
        - apply Ascii.eqb_eq in Hc'. subst c'. reflexivity.
        - reflexivity. }
      rewrite Hs. cbn [andb]. apply negb_true_iff in Hd. rewrite Hd.
      now rewrite IH.
Qed.

Lemma cooked_quoted s :
  includes squote s = false -> includes backslash s = false ->
  includes cr s = false -> includes nl s = false ->
  cooked false squote (s ++ str1 squote) = Some s.
Proof.
  induction s as [|c s IH]; intros Hq Hbs Hcr Hnl; [reflexivity|].
  apply includes_cons in Hq, Hbs, Hcr, Hnl.
  destruct Hq as [Hq Hq'], Hbs as [Hbs Hbs'], Hcr as [Hcr Hcr'], Hnl as [Hnl Hnl'].
  specialize (IH Hq' Hbs' Hcr' Hnl').
  cbn [append cooked]. rewrite Hq, Hbs, Hcr, Hnl. cbn [andb].
  now rewrite IH.
Qed.

(** A string without backslash, carriage return or [${], and without a
    backtick after or before a line feed, is read back as it was. *)
Lemma formatValue_round_trip cdc s key :
  key <> "calendar_locale" -> plain s = true ->
  read_back cdc s key = Some s.
Proof.
  intros Hkey Hplain. unfold plain in Hplain.
  rewrite !andb_true_iff, !negb_true_iff in Hplain.
  destruct Hplain as [[[Hbs Hcr] Hsub] Hmix].
  unfold read_back, formatValue.
  apply String.eqb_neq in Hkey. rewrite Hkey.
  destruct (includes nl s) eqn:Hnl.
  - simpl in Hmix. rewrite replace_nl_id.
    cbn [str1 append parse_literal]. change (Ascii.eqb backtick backtick) with true.
    cbv iota. now apply cooked_template.
  - destruct (includes squote s || includes dquote s)%bool eqn:Hquotes.
    + cbn [str1 append parse_literal]. change (Ascii.eqb backtick backtick) with true.
      cbv iota. now apply cooked_escaped.
    + apply orb_false_iff in Hquotes. destruct Hquotes as [Hsq Hdq].
      cbn [str1 append parse_literal]. change (Ascii.eqb squote backtick) with false.
      change (Ascii.eqb squote squote) with true. cbv iota. cbn [orb].
      now apply cooked_quoted.
Qed.

(** C8 is broken by the line-feed branch of [formatValue], which wraps the
    string in backticks and escapes nothing: a backtick in a string of
    several lines ends the literal, and what is written cannot be read
    back.  Nor does any branch escape a backslash or [${]: the path is read
    back with a tab in it, the message is not a literal. *)
Theorem formatValue_breaks_multiline_backtick cdc :
  formatValue cdc (VStr two_lines) "help"
  = VStr (str1 backtick ++ "Run" ++ str1 nl ++ str1 backtick ++ "npm start"
          ++ str1 backtick ++ str1 backtick)
  /\ read_back cdc two_lines "help" = None
  /\ read_back cdc windows_path "help" = Some ("C:" ++ str1 "009" ++ "emp")
  /\ read_back cdc windows_path "help" <> Some windows_path
  /\ read_back cdc placeholder "help" = None.
Proof.
  split; [reflexivity|]. split; [reflexivity|]. split; [reflexivity|].
  split; [|reflexivity]. vm_compute. discriminate.
Qed.

End Literals.

(** * Further properties *)

(** ** The differ *)

Lemma findMissing_entries es target :
  wf_obj es = true -> findMissing (VObj es) target = diff_entries target es.
Proof. apply findMissingKeys_entries. Qed.

Lemma diff_entries_cons target k sv es :
  diff_entries target ((k, sv) :: es)
  = match missing_value sv (target_value target k) with
    | Some x => (k, x) :: diff_entries target es
    | None => diff_entries target es
    end.
Proof.
  unfold diff_entries; simpl.
  destruct (missing_value sv (target_value target k)); reflexivity.
Qed.

Lemma diff_entries_ext t1 t2 es :
  (forall k, In k (keys es) -> target_value t1 k = target_value t2 k) ->
  diff_entries t1 es = diff_entries t2 es.
Proof.
  induction es as [|[k sv] es IH]; intros H; [reflexivity|].
  rewrite !diff_entries_cons. rewrite (H k) by now left.
  rewrite IH by (intros k' Hk'; apply H; now right). reflexivity.
Qed.

Lemma diff_keys_filter target es :
  NoDup (keys es) ->
  keys (diff_entries target es)
  = filter (hasOwnProperty (diff_entries target es)) (keys es).
Proof.
  induction es as [|[k sv] es IH]; intros Hnd; [reflexivity|].
  inversion Hnd as [|? ? Hk Hnd']; subst. specialize (IH Hnd').
  rewrite diff_entries_cons. cbn [keys map fst filter].
  assert (Hfresh : get_own (diff_entries target es) k = None).
  { apply get_own_not_in. intros Hin. apply Hk.
    eapply diff_entries_keys; eauto. }
  destruct (missing_value sv (target_value target k)) as [x|].
  - unfold hasOwnProperty at 1. cbn [get_own]. rewrite String.eqb_refl.
    cbn [keys map fst]. f_equal. fold (keys (diff_entries target es)).
    rewrite IH at 1. apply filter_ext_in. intros k' Hk'.
    unfold hasOwnProperty. cbn [get_own].
    destruct (String.eqb_spec k k') as [->|Hne]; [contradiction|reflexivity].
  - unfold hasOwnProperty at 1. rewrite Hfresh. exact IH.
Qed.

(** X1.  The diff of a well-formed source is a well-formed tree, and its
    keys are the keys of the source that it holds, in the order of the
    source. *)
Theorem findMissingKeys_in_source_order source target :
  wf_obj source = true ->
  wf_obj (findMissingKeys source target) = true
  /\ keys (findMissingKeys source target)
     = filter (hasOwnProperty (findMissingKeys source target)) (keys source).
Proof.
  intros Hwf. split; [now apply findMissingKeys_wf|].
  rewrite findMissingKeys_entries by exact Hwf.
  apply diff_keys_filter. now apply wf_obj_NoDup.
Qed.

Lemma findMissingKeys_in_source_order_witness :
  wf_obj scenario_source = true
  /\ keys (findMissingKeys scenario_source (VObj [("nums", VArr [])]))
     = filter (hasOwnProperty
                 (findMissingKeys scenario_source (VObj [("nums", VArr [])])))
         (keys scenario_source).
Proof.
  split; [reflexivity|].
  apply (findMissingKeys_in_source_order scenario_source (VObj [("nums", VArr [])])
           eq_refl).
Defined.

Lemma findMissingKeys_ext source t1 t2 :
  (forall k, In k (keys source) -> target_value t1 k = target_value t2 k) ->
  findMissingKeys source t1 = findMissingKeys source t2.
Proof.
  intros H. unfold findMissingKeys. rewrite !findMissing_fold.
  generalize (@nil (string * value)).
  induction source as [|[k sv] es IH]; intros acc; [reflexivity|].
  cbn [fold_left]. unfold diff_step at 2 4. cbn [fst snd].
  rewrite (H k) by now left.
  apply IH. intros k' Hk'. apply H. now right.
Qed.

(** X2.  The differ reads the target only at the keys of the source: two
    targets that hold the same values at those keys have the same diff.  A
    key that only the target has changes nothing. *)
Theorem findMissingKeys_reads_source_keys source t1 t2 :
  (forall k, In k (keys source) -> target_value t1 k = target_value t2 k) ->
  findMissingKeys source t1 = findMissingKeys source t2.
Proof. apply findMissingKeys_ext. Qed.

Lemma findMissingKeys_reads_source_keys_witness :
  (forall k, In k (keys partial_source) ->
     target_value partial_target k
     = target_value (VObj [("a", VStr "translated-X"); ("old", VStr "kept")]) k)
  /\ findMissingKeys partial_source
       (VObj [("a", VStr "translated-X"); ("old", VStr "kept")])
     = [("b", VStr "Y")].
Proof.
  assert (H : forall k, In k (keys partial_source) ->
     target_value partial_target k
     = target_value (VObj [("a", VStr "translated-X"); ("old", VStr "kept")]) k).
  { intros k [<- | [<- | []]]; reflexivity. }
  split; [exact H|].
  rewrite <- (findMissingKeys_reads_source_keys partial_source partial_target _ H).
  reflexivity.
Defined.

Lemma missing_value_kept target sv x :
  (forall t, wf_value sv = true ->
     findMissing (VObj (findMissing sv t)) t = findMissing sv t) ->
  wf_value sv = true ->
  missing_value sv target = Some x ->
  missing_value x target = Some x.
Proof.
  intros IH Hwf. unfold missing_value.
  destruct (is_plain_object sv) eqn:Hobj.
  - destruct (findMissing sv target) as [|e n] eqn:Hn; [discriminate|].
    intros [= <-]. cbn [is_plain_object]. rewrite <- Hn.
    rewrite IH by exact Hwf. rewrite Hn. reflexivity.
  - destruct (nullish target) eqn:Hnull; [|discriminate].
    intros [= <-]. now rewrite Hobj.
Qed.

Lemma findMissing_again v :
  forall target, wf_value v = true ->
    findMissing (VObj (findMissing v target)) target = findMissing v target.
Proof.
  induction v using value_nested_ind; intros target Hwf; try reflexivity.
  assert (Hd : wf_obj (findMissing (VObj o) target) = true)
    by now apply findMissing_wf.
  rewrite (findMissing_entries _ _ Hd).
  rewrite (findMissing_entries o target Hwf).
  apply wf_obj_parts in Hwf. destruct Hwf as [_ Hall].
  clear Hd. induction o as [|[k sv] o IHo]; [reflexivity|].
  inversion H as [|? ? Hsv Ho]; subst. inversion Hall as [|? ? Hwsv Hwo]; subst.
  cbn [snd] in *. specialize (IHo Ho Hwo).
  rewrite diff_entries_cons.
  destruct (missing_value sv (target_value target k)) as [x|] eqn:Hm; [|exact IHo].
  rewrite diff_entries_cons.
  rewrite (missing_value_kept (target_value target k) sv x); auto.
  now rewrite IHo.
Qed.

(** X3.  Diffing the diff against the same target changes nothing: what is
    missing from a target is missing as a whole. *)
Theorem findMissingKeys_idempotent source target :
  wf_obj source = true ->
  findMissingKeys (findMissingKeys source target) target
  = findMissingKeys source target.
Proof. intros Hwf. unfold findMissingKeys. now apply findMissing_again. Qed.

Lemma findMissingKeys_idempotent_witness :
  wf_obj nested_source = true
  /\ findMissingKeys [("menu", VObj [("close", VStr "Close")])] nested_existing
     = [("menu", VObj [("close", VStr "Close")])].
Proof.
  split; [reflexivity|].
  apply (findMissingKeys_idempotent nested_source nested_existing eq_refl).
Defined.

Lemma own_keys_obj o : own_keys (VObj o) = own_keys_entries o.
Proof. reflexivity. Qed.

Lemma own_keys_cons k v o :
  own_keys_entries ((k, v) :: o) = true ->
  inherited k = false /\ own_keys v = true /\ own_keys_entries o = true.
Proof.
  cbn [own_keys_entries fst snd]. rewrite !andb_true_iff, negb_true_iff. tauto.
Qed.

Lemma own_keys_in o k :
  own_keys_entries o = true -> In k (keys o) -> inherited k = false.
Proof.
  induction o as [|[k' v] o IH]; intros Hown Hin; [contradiction|].
  apply own_keys_cons in Hown. destruct Hown as (Hk & _ & Ho).
  destruct Hin as [<-|Hin]; auto.
Qed.

Lemma own_keys_get o k v :
  own_keys_entries o = true -> get_own o k = Some v ->
  inherited k = false /\ own_keys v = true.
Proof.
  induction o as [|[k' v'] o IH]; intros Hown Hget; [discriminate|].
  apply own_keys_cons in Hown. destruct Hown as (Hk & Hv & Ho).
  cbn [get_own] in Hget. destruct (String.eqb_spec k' k) as [->|_].
  - injection Hget as <-. auto.
  - auto.
Qed.

(** The lookup of a key that an object lacks.  The proof uses of the key
    only that it is none of the inherited names. *)
Lemma member_own_absent o k :
  inherited k = false -> get_own o k = None -> member (VObj o) k = VUndef.
Proof.
  intros Hk Hnone. unfold inherited, object_prototype_names in Hk.
  cbn [existsb] in Hk.
  repeat (apply orb_false_iff in Hk; destruct Hk as [? Hk]).
  cbn [member]. rewrite Hnone.
  repeat match goal with
         | H : String.eqb k ?n = false |- _ =>
             rewrite ?H; rewrite ?(String.eqb_sym n k), ?H; clear H
         end.
  reflexivity.
Qed.

Lemma blank_target_value target k :
  blank target -> inherited k = false -> target_value target k = VUndef.
Proof.
  unfold target_value. intros [H | ->] Hk; [now rewrite H|].
  cbn [truthy]. now apply member_own_absent.
Qed.

Lemma leafy_obj o :
  leafy (VObj o) = match o with [] => false | _ :: _ => true end && leafy_entries o.
Proof. reflexivity. Qed.

Lemma findMissing_blank v :
  forall target, wf_value v = true -> own_keys v = true -> blank target ->
    match v with
    | VObj o => leafy_entries o = true -> findMissing v target = o
    | _ => True
    end.
Proof.
  induction v using value_nested_ind; intros target Hwf Hown Hblank; try exact I.
  intros Hleafy. rewrite (findMissing_entries o target Hwf).
  apply wf_obj_parts in Hwf. destruct Hwf as [_ Hall].
  rewrite own_keys_obj in Hown.
  induction o as [|[k sv] o IHo]; [reflexivity|].
  inversion H as [|? ? Hsv Ho]; subst. inversion Hall as [|? ? Hwsv Hwo]; subst.
  apply own_keys_cons in Hown. destruct Hown as (Hk & Hosv & Hoo).
  cbn [snd] in *. cbn [leafy_entries snd] in Hleafy.
  apply andb_true_iff in Hleafy. destruct Hleafy as [Hlsv Hlo].
  rewrite diff_entries_cons, (blank_target_value target k Hblank Hk).
  rewrite (IHo Ho Hwo Hoo Hlo).
  unfold missing_value.
  destruct sv as [| | | | | |so]; try reflexivity.
  cbn [is_plain_object]. rewrite leafy_obj in Hlsv.
  apply andb_true_iff in Hlsv. destruct Hlsv as [Hne Hlso].
  specialize (Hsv VUndef Hwsv Hosv (or_introl eq_refl) Hlso). cbn beta iota in Hsv.
  rewrite Hsv. destruct so; [discriminate|reflexivity].
Qed.

(** X4.  Against a target that holds nothing (no file, an empty tree, a
    falsy value) the diff of a well-formed source without empty nested
    trees is the source itself: the whole tree is to be translated.  The
    empty tree still has the members every object inherits, so the
    statement is for sources none of whose keys is the name of one
    ([constructor], [toString], ...). *)
Theorem findMissingKeys_of_blank_target source target :
  wf_obj source = true -> own_keys (VObj source) = true ->
  leafy_entries source = true -> blank target ->
  findMissingKeys source target = source.
Proof.
  intros Hwf Hown Hleafy Hblank.
  exact (findMissing_blank (VObj source) target Hwf Hown Hblank Hleafy).
Qed.

Lemma findMissingKeys_of_blank_target_witness :
  wf_obj scenario_source = true /\ own_keys (VObj scenario_source) = true
  /\ leafy_entries scenario_source = true
  /\ blank (VObj [])
  /\ findMissingKeys scenario_source (VObj []) = scenario_source.
Proof.
  split; [reflexivity|]. split; [reflexivity|]. split; [reflexivity|].
  split; [now right|].
  apply (findMissingKeys_of_blank_target scenario_source (VObj [])
           eq_refl eq_refl eq_refl).
  now right.
Defined.

Lemma translation_not_nullish ans sv x :
  solid sv = true -> is_plain_object sv = false ->
  translation_of ans sv x -> nullish x = false.
Proof.
  destruct sv; cbn [solid is_plain_object translation_of]; try discriminate;
    intros _ _ H.
  - now subst.
  - now subst.
  - destruct H as (s' & -> & _). reflexivity.
  - destruct H as (l' & -> & _). reflexivity.
Qed.

Lemma member_head k x t : target_value (VObj ((k, x) :: t)) k = x.
Proof. unfold target_value. cbn. now rewrite String.eqb_refl. Qed.

Lemma member_tail k x t k' :
  k' <> k -> target_value (VObj ((k, x) :: t)) k' = target_value (VObj t) k'.
Proof.
  intros H. unfold target_value. cbn.
  destruct (String.eqb_spec k k') as [->|_]; [contradiction|reflexivity].
Qed.

Lemma target_value_absent t k :
  inherited k = false -> ~ In k (keys t) -> target_value (VObj t) k = VUndef.
Proof.
  intros Hk H. unfold target_value. cbn [truthy].
  apply member_own_absent; [exact Hk|]. now apply get_own_not_in.
Qed.

Lemma solid_obj o : solid (VObj o) = solid_entries o.
Proof. reflexivity. Qed.

Lemma findMissing_after_translation ans v :
  wf_value v = true -> solid v = true -> own_keys v = true ->
  match v with
  | VObj o =>
      forall t, translation_entries ans (findMissing v VUndef) t ->
                findMissing v (VObj t) = []
  | _ => True
  end.
Proof.
  induction v using value_nested_ind; intros Hwf Hsolid Hown; try exact I.
  intros t. rewrite !(findMissing_entries o _ Hwf).
  pose proof (wf_obj_NoDup o Hwf) as Hnd.
  apply wf_obj_parts in Hwf. destruct Hwf as [_ Hall].
  rewrite solid_obj in Hsolid. rewrite own_keys_obj in Hown.
  revert t. induction o as [|[k sv] o IHo]; intros t Ht; [reflexivity|].
  inversion H as [|? ? Hsv Ho]; subst. inversion Hall as [|? ? Hwsv Hwo]; subst.
  inversion Hnd as [|? ? Hk Hnd']; subst.
  apply own_keys_cons in Hown. destruct Hown as (Hik & Hosv & Hoo).
  cbn [snd] in *. cbn [solid_entries snd] in Hsolid.
  apply andb_true_iff in Hsolid. destruct Hsolid as [Hssv Hso].
  specialize (IHo Ho Hwo Hso Hoo Hnd').
  rewrite diff_entries_cons in Ht. rewrite diff_entries_cons.
  assert (Hundef : target_value VUndef k = VUndef) by reflexivity.
  rewrite Hundef in Ht.
  destruct (missing_value sv VUndef) as [x|] eqn:Hm.
  - destruct t as [|[k' x'] t']; [contradiction|].
    cbn [translation_entries] in Ht. destruct Ht as (<- & Hx & Ht').
    rewrite member_head.
    assert (Hrest : diff_entries (VObj ((k, x') :: t')) o = []).
    { rewrite (diff_entries_ext _ (VObj t') o).
      - now apply IHo.
      - intros k2 Hk2. apply member_tail. intros ->. contradiction. }
    rewrite Hrest.
    unfold missing_value in Hm |- *.
    destruct (is_plain_object sv) eqn:Hobj.
    + destruct sv as [| | | | | |so]; try discriminate.
      destruct (findMissing (VObj so) VUndef) as [|e n] eqn:Hn; [discriminate|].
      injection Hm as <-. rewrite translation_of_obj in Hx.
      destruct Hx as (tn & -> & Htn).
      rewrite (Hsv Hwsv Hssv Hosv tn Htn). reflexivity.
    + injection Hm as <-.
      now rewrite (translation_not_nullish ans sv x' Hssv Hobj Hx).
  - assert (Hfresh : ~ In k (keys t)).
    { rewrite (translation_entries_keys ans _ _ Ht). intros Hin. apply Hk.
      eapply diff_entries_keys; eauto. }
    rewrite (target_value_absent t k Hik Hfresh), Hm. now apply IHo.
Qed.

Lemma spread_blank target t :
  blank target -> js_ordered (keys t) = true ->
  spread target (VObj t) = t.
Proof.
  intros Hblank Hord. unfold spread.
  assert (Hown : own_entries target = []).
  { destruct Hblank as [H| ->]; [|reflexivity].
    destruct target; try discriminate; try reflexivity.
    cbn in H. apply negb_false_iff, String.eqb_eq in H. now subst. }
  rewrite Hown. cbn [assign_all fold_left own_entries].
  apply (assign_all_append t []). exact Hord.
Qed.

Lemma findMissingKeys_blank source target :
  own_keys (VObj source) = true -> blank target ->
  findMissingKeys source target = findMissingKeys source VUndef.
Proof.
  intros Hown Hblank. apply findMissingKeys_ext. intros k Hin.
  rewrite (blank_target_value target k Hblank); [reflexivity|].
  exact (own_keys_in source k Hown Hin).
Qed.

(** X5.  After a merge into nothing, nothing is missing: when the target
    held nothing, the source is well formed and none of its leaves is null
    or undefined, the diff of the source against the merged tree, which
    holds a translation of the first diff, is empty.  The lookups find what
    every object inherits, so the statement is for sources none of whose
    keys is the name of an inherited member. *)
Theorem second_run_finds_nothing ans source target translated :
  wf_obj source = true -> solid_entries source = true ->
  own_keys (VObj source) = true -> blank target ->
  translation_entries ans (findMissingKeys source target) translated ->
  findMissingKeys source (VObj (spread target (VObj translated))) = [].
Proof.
  intros Hwf Hsolid Hown Hblank Ht.
  rewrite (findMissingKeys_blank source target Hown Hblank) in Ht.
  assert (Hord : js_ordered (keys translated) = true).
  { rewrite (translation_entries_keys ans _ _ Ht).
    pose proof (findMissingKeys_wf source VUndef Hwf) as Hd.
    apply wf_obj_parts in Hd. apply Hd. }
  rewrite (spread_blank target translated Hblank Hord).
  exact (findMissing_after_translation ans (VObj source) Hwf Hsolid Hown translated Ht).
Qed.

Lemma second_run_finds_nothing_witness :
  wf_obj scenario_source = true /\ solid_entries scenario_source = true
  /\ own_keys (VObj scenario_source) = true
  /\ blank (VObj [])
  /\ translation_entries prefixed (findMissingKeys scenario_source (VObj []))
       scenario_translated
  /\ findMissingKeys scenario_source
       (VObj (spread (VObj []) (VObj scenario_translated))) = [].
Proof.
  assert (Ht : translation_entries prefixed (findMissingKeys scenario_source (VObj []))
                 scenario_translated).
  { cbn. repeat split.
    - eexists. split; reflexivity.
    - eexists. split; [reflexivity|]. repeat constructor.
    - eexists. split; [reflexivity|]. repeat split.
      eexists. split; reflexivity. }
  split; [reflexivity|]. split; [reflexivity|]. split; [reflexivity|].
  split; [now right|]. split; [exact Ht|].
  apply (second_run_finds_nothing prefixed scenario_source (VObj [])
           scenario_translated eq_refl eq_refl eq_refl (or_intror eq_refl) Ht).
Defined.

(** ** The merge *)

Lemma assign_all_get b : forall o k,
  NoDup (keys b) ->
  get_own (assign_all o b) k
  = match get_own b k with
    | Some v => Some v
    | None => get_own o k
    end.
Proof.
  unfold assign_all.
  induction b as [|[k1 v1] b IH]; intros o k Hnd; [reflexivity|].
  inversion Hnd as [|? ? Hk Hnd']; subst. cbn [fold_left fst snd get_own].
  rewrite IH by exact Hnd'.
  destruct (String.eqb_spec k1 k) as [->|Hne].
  - rewrite (get_own_not_in b k Hk). apply get_own_set_same.
  - destruct (get_own b k); [reflexivity|].
    apply get_own_set_other. congruence.
Qed.

(** X6.  The merge [{ ...existingTranslations, ...translatedData }] of two
    well-formed trees holds, at a top-level key, the translated value when
    the translated tree has the key and the existing value otherwise: a key
    that only the target file has is kept, a key of both is replaced as a
    whole. *)
Theorem merged_lookup existing translated k :
  wf_obj existing = true -> wf_obj translated = true ->
  get_own (spread (VObj existing) (VObj translated)) k
  = match get_own translated k with
    | Some v => Some v
    | None => get_own existing k
    end.
Proof.
  intros He Ht. unfold spread. cbn [own_entries].
  rewrite assign_all_get by now apply wf_obj_NoDup.
  apply wf_obj_parts in He. destruct He as [Hord _].
  rewrite (assign_all_append existing []) by exact Hord. reflexivity.
Qed.

Lemma merged_lookup_witness :
  wf_obj [("a", VStr "translated-X"); ("old", VStr "kept")] = true
  /\ wf_obj [("b", VStr "es:Y")] = true
  /\ get_own (spread (VObj [("a", VStr "translated-X"); ("old", VStr "kept")])
                (VObj [("b", VStr "es:Y")])) "old"
     = Some (VStr "kept").
Proof.
  split; [reflexivity|]. split; [reflexivity|].
  rewrite (merged_lookup [("a", VStr "translated-X"); ("old", VStr "kept")]
             [("b", VStr "es:Y")] "old" eq_refl eq_refl).
  reflexivity.
Defined.

Lemma translation_entries_get ans o : forall t k x,
  translation_entries ans o t -> get_own o k = Some x ->
  exists x', get_own t k = Some x' /\ translation_of ans x x'.
Proof.
  induction o as [|[k1 x1] o IH]; intros [|[k1' x1'] t] k x Ht Hget;
    cbn [translation_entries] in Ht; try contradiction; [discriminate|].
  destruct Ht as (<- & Hx & Ht). cbn [get_own] in *.
  destruct (k1 =? k).
  - injection Hget as <-. eauto.
  - eauto.
Qed.

(** X7.  A leaf of the source that is [null] or [undefined] never stops
    being missing: when the target lacks it, the translator passes it
    through as it is, the merged tree holds it, and the next diff reports
    it again. *)
Theorem nullish_leaf_stays_missing ans source target translated k sv :
  wf_obj source = true ->
  get_own source k = Some sv -> nullish sv = true ->
  nullish (target_value target k) = true ->
  translation_entries ans (findMissingKeys source target) translated ->
  get_own (findMissingKeys source (VObj (spread target (VObj translated)))) k
  = Some sv.
Proof.
  intros Hwf Hget Hsv Htv Ht.
  assert (Hleaf : is_plain_object sv = false) by (destruct sv; auto; discriminate).
  assert (Hdiff : get_own (findMissingKeys source target) k = Some sv).
  { rewrite findMissingKeys_get, Hget by exact Hwf.
    unfold missing_value. now rewrite Hleaf, Htv. }
  destruct (translation_entries_get ans _ _ _ _ Ht Hdiff) as (x' & Hx' & Hrel).
  assert (Hsame : x' = sv) by (destruct sv; try discriminate; exact Hrel).
  subst x'.
  assert (Hnd : NoDup (keys translated)).
  { rewrite (translation_entries_keys ans _ _ Ht).
    apply wf_obj_NoDup. now apply findMissingKeys_wf. }
  rewrite findMissingKeys_get, Hget by exact Hwf.
  unfold target_value at 1. cbn [truthy member]. unfold spread.
  cbn [own_entries]. rewrite assign_all_get, Hx' by exact Hnd.
  unfold missing_value. now rewrite Hleaf, Hsv.
Qed.

Lemma nullish_leaf_stays_missing_witness :
  wf_obj [("a", VStr "X"); ("b", VNull)] = true
  /\ get_own [("a", VStr "X"); ("b", VNull)] "b" = Some VNull
  /\ nullish VNull = true
  /\ nullish (target_value (VObj []) "b") = true
  /\ translation_entries prefixed
       (findMissingKeys [("a", VStr "X"); ("b", VNull)] (VObj []))
       [("a", VStr "es:X"); ("b", VNull)]
  /\ get_own
       (findMissingKeys [("a", VStr "X"); ("b", VNull)]
          (VObj (spread (VObj []) (VObj [("a", VStr "es:X"); ("b", VNull)]))))
       "b"
     = Some VNull.
Proof.
  assert (Ht : translation_entries prefixed
                 (findMissingKeys [("a", VStr "X"); ("b", VNull)] (VObj []))
                 [("a", VStr "es:X"); ("b", VNull)]).
  { cbn. repeat split. eexists. split; reflexivity. }
  split; [reflexivity|]. split; [reflexivity|]. split; [reflexivity|].
  split; [reflexivity|]. split; [exact Ht|].
  exact (nullish_leaf_stays_missing prefixed [("a", VStr "X"); ("b", VNull)]
           (VObj []) [("a", VStr "es:X"); ("b", VNull)] "b" VNull
           eq_refl eq_refl eq_refl eq_refl Ht).
Defined.

(** ** The adapter *)

Lemma api_attempts_outcome provider : forall left attempt retryCount delay text lang w,
  attempt + left = S retryCount -> 1 <= left ->
  exists n answer,
    1 <= n <= left
    /\ (forall i, i < n - 1 -> provider (requests w + i) text lang = None)
    /\ provider (requests w + (n - 1)) text lang = answer
    /\ run provider (api_attempts left attempt retryCount delay text lang) w
       = (match answer with
          | Some t => Ok (VStr t)
          | None => Err (persistent_error text retryCount)
          end,
          extend w n
            (failed_attempts (requests w) (n - 1) delay text lang
             ++ [EvPost (requests w + (n - 1)) text lang;
                 EvResponse (requests w + (n - 1)) answer]))
    /\ (answer = None -> n = left).
Proof.
  induction left as [|left IH]; intros attempt retryCount delay text lang w Hinv Hleft;
    [lia|].
  rewrite api_attempts_S. cbn [run].
  destruct (provider (requests w) text lang) as [t|] eqn:Hans.
  - exists 1, (Some t). cbn [Nat.sub failed_attempts app]. rewrite Nat.add_0_r.
    split; [lia|]. split; [intros i Hi; lia|]. split; [exact Hans|].
    split; [|discriminate].
    cbn [run]. now rewrite log_extend, issue_extend, extend_extend.
  - destruct (attempt <? retryCount)%nat eqn:Hlt.
    + apply Nat.ltb_lt in Hlt. cbn [run].
      assert (Hw1 : log (EvSleep delay)
                      (log (EvResponse (requests w) None) (issue text lang w))
                    = extend w 1 [EvPost (requests w) text lang;
                                  EvResponse (requests w) None; EvSleep delay])
        by now rewrite !log_extend, issue_extend, !extend_extend.
      rewrite Hw1.
      set (w1 := extend w 1 [EvPost (requests w) text lang;
                             EvResponse (requests w) None; EvSleep delay]).
      destruct (IH (S attempt) retryCount (delay * 2)%Z text lang w1)
        as (n & answer & Hn & Hfail & Hlast & Hrun & Hend); [lia | lia |].
      change (requests w1) with (S (requests w)) in *.
      destruct n as [|m]; [lia|].
      replace (S m - 1) with m in * by lia.
      exists (S (S m)), answer.
      replace (S (S m) - 1) with (S m) by lia.
      split; [lia|]. split.
      { intros i Hi. destruct i as [|i]; [now rewrite Nat.add_0_r|].
        replace (requests w + S i) with (S (requests w) + i) by lia.
        apply Hfail. lia. }
      split.
      { replace (requests w + S m) with (S (requests w) + m) by lia.
        exact Hlast. }
      split; [|intros Ha; specialize (Hend Ha); lia].
      subst w1. rewrite Hrun, extend_extend.
      cbn [Nat.add failed_attempts app].
      replace (S (requests w + m)) with (requests w + S m) by lia.
      reflexivity.
    + apply Nat.ltb_ge in Hlt. exists 1, None.
      cbn [Nat.sub failed_attempts app]. rewrite Nat.add_0_r.
      split; [lia|]. split; [intros i Hi; lia|]. split; [exact Hans|].
      split; [|intros _; lia].
      cbn [run]. now rewrite log_extend, issue_extend, extend_extend.
Qed.

(** X8.  Whatever the provider does, a call of the adapter with at least
    one attempt allowed makes between one and [retryCount] requests, all
    but the last of them failed, and pauses once between two requests, each
    pause twice the one before.  It returns the answer to the last request,
    a string and never [undefined]; it throws only when that request has
    failed too and was the [retryCount]-th. *)
Theorem apiSingleCall_outcome provider text lang retryCount delay w :
  1 <= retryCount ->
  exists n evs,
    1 <= n <= retryCount
    /\ snd (run provider (apiSingleCall_with text lang retryCount delay) w)
       = extend w n evs
    /\ invocations evs = n
    /\ sleeps evs = doubling (n - 1) delay
    /\ (forall i, i < n - 1 -> provider (requests w + i) text lang = None)
    /\ match fst (run provider (apiSingleCall_with text lang retryCount delay) w) with
       | Ok v =>
           exists t, v = VStr t
                     /\ provider (requests w + (n - 1)) text lang = Some t
       | Err msg =>
           msg = persistent_error text retryCount /\ n = retryCount
           /\ provider (requests w + (n - 1)) text lang = None
       end.
Proof.
  intros Hrc. unfold apiSingleCall_with.
  destruct (api_attempts_outcome provider retryCount 1 retryCount delay text lang w)
    as (n & answer & Hn & Hfail & Hlast & Hrun & Hend); [lia | lia |].
  eexists n, _. rewrite Hrun. cbn [fst snd].
  split; [exact Hn|]. split; [reflexivity|]. split.
  { rewrite invocations_app, invocations_failed. unfold invocations; simpl. lia. }
  split.
  { rewrite sleeps_app, sleeps_failed. simpl. now rewrite app_nil_r. }
  split; [exact Hfail|].
  destruct answer as [t|].
  - exists t. auto.
  - split; [reflexivity|]. split; [now apply Hend|exact Hlast].
Qed.

Lemma apiSingleCall_outcome_witness :
  1 <= 3
  /\ exists n evs,
       1 <= n <= 3
       /\ snd (run third_time_lucky (apiSingleCall_with "Hello" "es" 3 1000)
                 (initial_world []))
          = extend (initial_world []) n evs
       /\ invocations evs = n.
Proof.
  split; [lia|].
  destruct (apiSingleCall_outcome third_time_lucky "Hello" "es" 3 1000
              (initial_world []) ltac:(lia))
    as (n & evs & Hn & Hw & Hi & _).
  exists n, evs. auto.
Defined.

(** ** The translator *)

Lemma strings_of_obj o : strings_of (VObj o) = strings_of_entries o.
Proof. reflexivity. Qed.

Lemma requests_for_app lang a : forall id b,
  requests_for id lang (a ++ b)
  = requests_for id lang a ++ requests_for (List.length a + id) lang b.
Proof.
  induction a as [|s a IH]; intros id b; [reflexivity|].
  rewrite <- app_comm_cons. cbn [requests_for List.length]. rewrite IH.
  replace (List.length a + S id) with (S (List.length a) + id) by lia.
  reflexivity.
Qed.

Lemma exchange_of_app lang id l1 l2 e1 e2 :
  exchange_of lang id l1 e1 ->
  exchange_of lang (List.length l1 + id) l2 e2 ->
  exchange_of lang id (l1 ++ l2) (e1 ++ e2).
Proof.
  intros [Hp1 He1] [Hp2 He2]. split.
  - unfold posted in *. now rewrite flat_map_app, Hp1, Hp2, requests_for_app.
  - now rewrite forallb_app, He1, He2.
Qed.

Section Answered.
Variable tr : nat -> string -> string -> string.
Variable lang : string.

Lemma sends_ret {A} (a : A) : sends tr lang (Ret a) [].
Proof.
  intros w. exists a, []. cbn. rewrite extend_0. repeat split.
Qed.

Lemma sends_bind {A B} (m : prog A) (f : A -> prog B) l1 l2 :
  sends tr lang m l1 -> (forall a, sends tr lang (f a) l2) ->
  sends tr lang (bind m f) (l1 ++ l2).
Proof.
  intros Hm Hf w. destruct (Hm w) as (a & e1 & Ha & He1). rewrite run_bind, Ha.
  destruct (Hf a (extend w (List.length l1) e1)) as (b & e2 & Hb & He2).
  exists b, (e1 ++ e2). rewrite Hb, extend_extend, length_app.
  split; [reflexivity|]. now apply exchange_of_app.
Qed.

Lemma sends_api s : sends tr lang (apiSingleCall s lang) [s].
Proof.
  intros w. do 2 eexists. unfold apiSingleCall, apiSingleCall_with.
  cbn [api_attempts run answering]. rewrite log_extend, issue_extend, extend_extend.
  split; [reflexivity|]. split; reflexivity.
Qed.

Lemma sends_items l : sends tr lang (mapM (translate_item lang) l) (item_strings l).
Proof.
  induction l as [|x l IH]; cbn [mapM]; [apply sends_ret|].
  unfold item_strings. cbn [flat_map]. fold (item_strings l).
  apply sends_bind.
  - destruct x; try apply sends_ret. apply sends_api.
  - intros x'. rewrite <- (app_nil_r (item_strings l)).
    apply sends_bind; [exact IH|]. intros l'. apply sends_ret.
Qed.

Lemma sends_entries es : forall acc,
  Forall (fun kv => sends tr lang (translate_value lang (snd kv))
                      (strings_of (snd kv))) es ->
  sends tr lang (translate_entries lang es acc) (strings_of_entries es).
Proof.
  induction es as [|[k x] es IH]; intros acc Hall; cbn [translate_entries].
  - apply sends_ret.
  - inversion Hall; subst. cbn [strings_of_entries snd].
    apply sends_bind; auto.
Qed.

Lemma sends_value v : sends tr lang (translate_value lang v) (strings_of v).
Proof.
  induction v using value_nested_ind; try apply sends_ret.
  - apply sends_api.
  - cbn [translate_value strings_of]. rewrite <- (app_nil_r (item_strings l)).
    apply sends_bind; [apply sends_items|]. intros; apply sends_ret.
  - rewrite translate_value_obj, strings_of_obj. now apply sends_entries.
Qed.
End Answered.

(** The translator with a provider that answers: what it sends. *)
Lemma translateNestedObject_sends tr o lang w :
  exists translated evs,
    run (answering tr) (translateNestedObject o lang) w
    = (Ok translated, extend w (List.length (strings_of (VObj o))) evs)
    /\ exchange_of lang (requests w) (strings_of (VObj o)) evs.
Proof.
  unfold translateNestedObject.
  destruct (sends_value tr lang (VObj o) w) as (v & evs & Hv & He).
  rewrite run_bind, Hv. do 2 eexists. split; [reflexivity|exact He].
Qed.

(** X9.  With a provider that answers, the translator requests the strings
    of the tree in the order of the tree, keys in enumeration order and the
    elements of an array in their order, a string once at each of its
    occurrences, all for the desired language, and it requests nothing
    else. *)
Theorem translateNestedObject_requests_in_order tr o lang w :
  exists translated evs,
    run (answering tr) (translateNestedObject o lang) w
    = (Ok translated, extend w (List.length (strings_of (VObj o))) evs)
    /\ posted evs = requests_for (requests w) lang (strings_of (VObj o))
    /\ forallb is_exchange evs = true.
Proof.
  destruct (translateNestedObject_sends tr o lang w) as (translated & evs & Hrun & He).
  exists translated, evs. split; [exact Hrun|exact He].
Qed.

Section Quiet.
Variable provider : nat -> string -> string -> option string.
Variable lang : string.

Lemma quiet_items l :
  item_strings l = [] -> forall w, run provider (mapM (translate_item lang) l) w = (Ok l, w).
Proof.
  induction l as [|x l IH]; intros Hs w; [reflexivity|].
  cbn [mapM]. rewrite run_bind.
  unfold item_strings in Hs. cbn [flat_map] in Hs. fold (item_strings l) in Hs.
  apply app_eq_nil in Hs. destruct Hs as [Hx Hl].
  destruct x; try discriminate; cbn [translate_item run];
    rewrite run_bind, (IH Hl); reflexivity.
Qed.

Lemma quiet_entries es : forall acc,
  Forall (fun kv => strings_of (snd kv) = [] ->
                    quiet provider (translate_value lang (snd kv))
                      (wf_value (snd kv) = true) (snd kv)) es ->
  strings_of_entries es = [] ->
  forall w, exists r,
    run provider (translate_entries lang es acc) w = (Ok (VObj r), w)
    /\ (js_ordered (keys acc ++ keys es) = true ->
        Forall (fun kv => wf_value (snd kv) = true) es -> r = acc ++ es).
Proof.
  induction es as [|[k x] es IH]; intros acc Hall Hs w; cbn [translate_entries].
  - exists acc. split; [reflexivity|]. intros _ _. now rewrite app_nil_r.
  - inversion Hall as [|? ? Hx Hes]; subst. cbn [strings_of_entries snd] in Hs.
    apply app_eq_nil in Hs. destruct Hs as [Hsx Hses].
    destruct (Hx Hsx w) as (x' & Hrun & Hx'). cbn [snd] in Hrun, Hx'.
    rewrite run_bind, Hrun.
    destruct (IH (obj_set acc k x') Hes Hses w) as (r & Hr & Hgood).
    exists r. split; [exact Hr|]. intros Hord Hwf.
    inversion Hwf as [|? ? Hwx Hwes]; subst. cbn [snd] in *.
    rewrite (Hx' Hwx) in *. cbn [keys map fst] in Hord.
    assert (Hset : obj_set acc k x = acc ++ [(k, x)]).
    { apply set_last. eapply js_ordered_middle. exact Hord. }
    rewrite Hset in Hgood. rewrite Hgood; auto.
    + now rewrite <- app_assoc.
    + unfold keys in *. rewrite map_app, <- app_assoc. exact Hord.
Qed.

Lemma quiet_value v :
  strings_of v = [] ->
  quiet provider (translate_value lang v) (wf_value v = true) v.
Proof.
  induction v using value_nested_ind; intros Hs w;
    try (eexists; split; [reflexivity|reflexivity]); try discriminate.
  - cbn [translate_value strings_of] in *. rewrite run_bind, (quiet_items _ Hs).
    eexists; split; reflexivity.
  - rewrite translate_value_obj. rewrite strings_of_obj in Hs.
    destruct (quiet_entries o [] H Hs w) as (r & Hr & Hgood).
    exists (VObj r). split; [exact Hr|]. intros Hwf.
    apply wf_obj_parts in Hwf. destruct Hwf as [Hord Hall].
    now rewrite (Hgood Hord Hall).
Qed.
End Quiet.

(** X10.  A well-formed tree that holds no string, neither as the value of a
    key nor as an element of an array that is one, comes back from the
    translator as it is, and no request is made, whatever the provider. *)
Theorem translateNestedObject_without_strings provider o lang w :
  wf_obj o = true ->
  strings_of (VObj o) = [] ->
  run provider (translateNestedObject o lang) w = (Ok o, w).
Proof.
  intros Hwf Hs. unfold translateNestedObject.
  destruct (quiet_value provider lang (VObj o) Hs w) as (v & Hrun & Hv).
  rewrite run_bind, Hrun, (Hv Hwf). reflexivity.
Qed.

Lemma translateNestedObject_without_strings_witness :
  run never_answers
    (translateNestedObject
       [("n", VNum 1); ("l", VArr [VNum 2; VNull]); ("o", VObj [("b", VBool true)])]
       "es") (initial_world [])
  = (Ok [("n", VNum 1); ("l", VArr [VNum 2; VNull]); ("o", VObj [("b", VBool true)])],
     initial_world []).
Proof.
  apply translateNestedObject_without_strings; reflexivity.
Defined.

Section Failing.
Variable provider : nat -> string -> string -> option string.
Variable lang : string.

Lemma apiSingleCall_fails s w :
  always_fails provider s lang ->
  run provider (apiSingleCall s lang) w
  = (Err (persistent_error s 3), extend w 3 (three_failures (requests w) s lang)).
Proof.
  intros Hf. unfold apiSingleCall, apiSingleCall_with.
  now rewrite (api_attempts_failure provider 2 1 3 1000 s lang w eq_refl Hf).
Qed.

Lemma failing_items l : forall s rest w,
  item_strings l = s :: rest ->
  always_fails provider s lang ->
  run provider (mapM (translate_item lang) l) w
  = (Err (persistent_error s 3), extend w 3 (three_failures (requests w) s lang)).
Proof.
  induction l as [|x l IH]; intros s rest w Hs Hf; [discriminate|].
  cbn [mapM]. rewrite run_bind.
  unfold item_strings in Hs. cbn [flat_map] in Hs. fold (item_strings l) in Hs.
  destruct x; cbn [app] in Hs;
    try (cbn [translate_item run]; rewrite run_bind, (IH _ _ _ Hs Hf); reflexivity).
  injection Hs as -> _. cbn [translate_item]. now rewrite apiSingleCall_fails.
Qed.

Lemma failing_entries es : forall acc s rest w,
  Forall (fun kv => forall s rest w,
            strings_of (snd kv) = s :: rest ->
            always_fails provider s lang ->
            run provider (translate_value lang (snd kv)) w
            = (Err (persistent_error s 3),
               extend w 3 (three_failures (requests w) s lang))) es ->
  strings_of_entries es = s :: rest ->
  always_fails provider s lang ->
  run provider (translate_entries lang es acc) w
  = (Err (persistent_error s 3), extend w 3 (three_failures (requests w) s lang)).
Proof.
  induction es as [|[k x] es IH]; intros acc s rest w Hall Hs Hf; [discriminate|].
  inversion Hall as [|? ? Hx Hes]; subst. cbn [translate_entries].
  cbn [strings_of_entries snd] in Hs, Hx. rewrite run_bind.
  destruct (strings_of x) as [|s1 r1] eqn:Hsx.
  - destruct (quiet_value provider lang x Hsx w) as (x' & Hrun & _).
    rewrite Hrun. eapply IH; eauto.
  - injection Hs as -> _. now rewrite (Hx s r1 w eq_refl Hf).
Qed.

Lemma failing_value v : forall s rest w,
  strings_of v = s :: rest ->
  always_fails provider s lang ->
  run provider (translate_value lang v) w
  = (Err (persistent_error s 3), extend w 3 (three_failures (requests w) s lang)).
Proof.
  induction v using value_nested_ind; intros t rest w Hs Hf; try discriminate.
  - injection Hs as -> _. now apply apiSingleCall_fails.
  - cbn [translate_value strings_of] in *.
    now rewrite run_bind, (failing_items _ _ _ _ Hs Hf).
  - rewrite translate_value_obj. rewrite strings_of_obj in Hs.
    eapply failing_entries; eauto.
Qed.
End Failing.

(** X11.  When every request for the first string of the tree fails, the
    translator throws the error of the adapter for that string after three
    requests for it and two pauses, of one and of two seconds; nothing was
    requested before and no other string is requested.  The elements of an
    array are requested together, so the statement is for trees none of
    whose arrays holds two strings. *)
Theorem translateNestedObject_stops_at_first_failure provider o lang w s rest :
  serial (VObj o) = true ->
  strings_of (VObj o) = s :: rest ->
  always_fails provider s lang ->
  run provider (translateNestedObject o lang) w
  = (Err (persistent_error s 3), extend w 3 (three_failures (requests w) s lang)).
Proof.
  intros _ Hs Hf. unfold translateNestedObject.
  now rewrite run_bind, (failing_value provider lang (VObj o) s rest w Hs Hf).
Qed.

Lemma translateNestedObject_stops_at_first_failure_witness :
  run never_answers
    (translateNestedObject
       [("n", VNum 1); ("a", VStr "Oi"); ("l", VArr [VStr "Sim"])] "es")
    (initial_world [])
  = (Err (persistent_error "Oi" 3),
     extend (initial_world []) 3 (three_failures 0 "Oi" "es")).
Proof.
  apply (translateNestedObject_stops_at_first_failure never_answers
           [("n", VNum 1); ("a", VStr "Oi"); ("l", VArr [VStr "Sim"])]
           "es" (initial_world []) "Oi" ["Sim"]).
  - reflexivity.
  - reflexivity.
  - intros id. reflexivity.
Defined.

(** ** Calls that are not awaited *)




(** ** One locale, continued *)







Lemma hasOwnProperty_diff source target k :
  wf_obj source = true -> hasOwnProperty source k = false ->
  hasOwnProperty (findMissingKeys source target) k = false.
Proof.
  intros Hwf. unfold hasOwnProperty. rewrite findMissingKeys_get by exact Hwf.
  destruct (get_own source k); [discriminate|reflexivity].
Qed.

(** A locale translated from nothing, with a source without the calendar
    field: the file is written before the call returns. *)
Lemma run_from_nothing rt cdc cfg tr o lang filePath w :
  wf_obj o = true ->
  hasOwnProperty o "calendar_locale" = false ->
  findMissingKeys o (VObj []) <> [] ->
  ext cfg = ".json" \/ ext cfg = ".ts" ->
  read_file (files w) filePath = None ->
  exists translated evs,
    translation_entries (answered (answering tr) lang) (findMissingKeys o (VObj []))
      translated
    /\ exchange_of lang (requests w)
         (strings_of (VObj (findMissingKeys o (VObj [])))) evs
    /\ run (answering tr) (translateAndSaveNestedObject rt cdc cfg o lang filePath) w
       = (Ok tt,
          write_file filePath (persisted cdc (ext cfg) translated)
            (extend w (List.length (strings_of (VObj (findMissingKeys o (VObj [])))))
               (EvRead filePath :: evs))).
Proof.
  intros Hwf Hcal Hsome Hext Hfile.
  assert (Hload : existing_of cdc cfg w filePath = Some (VObj []))
    by (unfold existing_of; now rewrite Hfile).
  assert (Hmwf : wf_obj (findMissingKeys o (VObj [])) = true)
    by now apply findMissingKeys_wf.
  destruct (translateNestedObject_answering tr _ lang (extend w 0 [EvRead filePath]) Hmwf)
    as (translated & evs0 & Hrun & Ht).
  destruct (translateNestedObject_sends tr (findMissingKeys o (VObj [])) lang
              (extend w 0 [EvRead filePath])) as (translated' & evs & Hrun' & He).
  rewrite Hrun' in Hrun. injection Hrun as Heq _. subst translated'.
  assert (Hord : js_ordered (keys translated) = true).
  { rewrite (translation_entries_keys _ _ _ Ht).
    apply wf_obj_parts in Hmwf. apply Hmwf. }
  assert (Hmerged : spread (VObj []) (VObj translated) = translated)
    by (apply spread_blank; [now right|exact Hord]).
  assert (Hcopy : copy_of translated = translated).
  { unfold copy_of, spread. cbn [own_entries assign_all fold_left].
    apply (assign_all_append translated []). exact Hord. }
  exists translated, evs. split; [exact Ht|]. split; [exact He|].
  unfold translateAndSaveNestedObject.
  rewrite run_bind, (run_load_existing _ _ _ _ _ _ Hload).
  destruct (keys (findMissingKeys o (VObj []))) as [|k0 ks] eqn:Hk;
    [apply keys_nil in Hk; contradiction|].
  rewrite run_bind, Hrun', Hmerged. cbn [run].
  pose proof (saveTranslations_exec rt cdc filePath translated (ext cfg)
                (findMissingKeys o (VObj []))
                (extend (extend w 0 [EvRead filePath])
                   (List.length (strings_of (VObj (findMissingKeys o (VObj [])))))
                   evs)
                Hext) as Hsave.
  rewrite (hasOwnProperty_diff o (VObj []) _ Hwf Hcal) in Hsave.
  rewrite Hsave, Hcopy. cbn [park]. rewrite extend_extend.
  reflexivity.
Qed.

Lemma existing_of_written cdc cfg path content w :
  ext cfg = ".json" ->
  existing_of cdc cfg (write_file path content w) path = JSON_parse cdc content.
Proof.
  intros Hext. unfold existing_of. cbn [files write_file read_file].
  now rewrite String.eqb_refl, Hext.
Qed.

(** X13.  A first run from nothing settles a JSON locale.  For a
    well-formed source without the calendar field, none of whose leaves is
    null or undefined and none of whose keys is the name of an inherited
    member, no target file, the extension [.json] and a provider that
    answers: the file is written before [translateAndSaveNestedObject]
    returns, the file system accepting the write, and its text is the JSON
    text of a translation of what the differ finds missing against the
    empty tree.  When [JSON.parse] reads
    that text back as the tree, a second run, in the world the first run
    has left, reads the file, makes no request and writes nothing, whatever
    the provider. *)
Theorem first_run_settles_the_locale rt cdc cfg tr o lang filePath w :
  wf_obj o = true -> solid_entries o = true -> own_keys (VObj o) = true ->
  hasOwnProperty o "calendar_locale" = false ->
  findMissingKeys o (VObj []) <> [] ->
  ext cfg = ".json" ->
  read_file (files w) filePath = None ->
  (forall t,
     translation_entries (answered (answering tr) lang) (findMissingKeys o (VObj [])) t ->
     JSON_parse cdc (JSON_stringify cdc (VObj t)) = Some (VObj t)) ->
  exists translated evs w1,
    translation_entries (answered (answering tr) lang) (findMissingKeys o (VObj []))
      translated
    /\ forallb is_exchange evs = true
    /\ w1 = write_file filePath (JSON_stringify cdc (VObj translated))
              (extend w (List.length (strings_of (VObj (findMissingKeys o (VObj [])))))
                 (EvRead filePath :: evs))
    /\ run (answering tr) (translateAndSaveNestedObject rt cdc cfg o lang filePath) w
       = (Ok tt, w1)
    /\ forall provider,
         run provider (translateAndSaveNestedObject rt cdc cfg o lang filePath) w1
         = (Ok tt, extend w1 0 [EvRead filePath]).
Proof.
  intros Hwf Hsolid Hown Hcal Hsome Hext Hfile Hback.
  destruct (run_from_nothing rt cdc cfg tr o lang filePath w Hwf Hcal Hsome
              (or_introl Hext) Hfile)
    as (translated & evs & Ht & [_ He] & Hrun).
  assert (Htext : persisted cdc (ext cfg) translated
                  = JSON_stringify cdc (VObj translated))
    by (unfold persisted; now rewrite Hext).
  rewrite Htext in Hrun.
  exists translated, evs. eexists.
  split; [exact Ht|]. split; [exact He|]. split; [reflexivity|].
  split; [exact Hrun|].
  intros provider. unfold translateAndSaveNestedObject.
  rewrite run_bind.
  erewrite run_load_existing
    by (rewrite existing_of_written by exact Hext; exact (Hback translated Ht)).
  assert (Hnone : findMissingKeys o (VObj translated) = []).
  { apply (findMissing_after_translation (answered (answering tr) lang) (VObj o)
             Hwf Hsolid Hown translated).
    change (findMissing (VObj o) VUndef) with (findMissingKeys o VUndef).
    rewrite <- (findMissingKeys_blank o (VObj []) Hown (or_intror eq_refl)).
    exact Ht. }
  rewrite Hnone. reflexivity.
Qed.

Lemma first_run_settles_the_locale_witness :
  exists translated evs w1,
    translation_entries (answered (answering echo) "es")
      (findMissingKeys [("greeting", VStr "Hello")] (VObj [])) translated
    /\ forallb is_exchange evs = true
    /\ w1 = write_file "out/es.ts"
              (JSON_stringify (reading (VObj [("greeting", VStr "es:Hello")]) to_string)
                 (VObj translated))
              (extend (initial_world [])
                 (List.length
                    (strings_of
                       (VObj (findMissingKeys [("greeting", VStr "Hello")] (VObj [])))))
                 (EvRead "out/es.ts" :: evs))
    /\ run (answering echo)
         (translateAndSaveNestedObject utc_english
            (reading (VObj [("greeting", VStr "es:Hello")]) to_string) json_config
            [("greeting", VStr "Hello")] "es" "out/es.ts") (initial_world [])
       = (Ok tt, w1)
    /\ forall provider,
         run provider
           (translateAndSaveNestedObject utc_english
              (reading (VObj [("greeting", VStr "es:Hello")]) to_string) json_config
              [("greeting", VStr "Hello")] "es" "out/es.ts") w1
         = (Ok tt, extend w1 0 [EvRead "out/es.ts"]).
Proof.
  apply (first_run_settles_the_locale utc_english
           (reading (VObj [("greeting", VStr "es:Hello")]) to_string)
           json_config echo [("greeting", VStr "Hello")] "es" "out/es.ts"
           (initial_world [])).
  - reflexivity.
  - reflexivity.
  - reflexivity.
  - reflexivity.
  - discriminate.
  - reflexivity.
  - reflexivity.
  - intros t Ht.
    destruct t as [|[k x] [|]]; cbn in Ht; try tauto.
    destruct Ht as (<- & (s' & -> & id & Hs) & _).
    injection Hs as <-. reflexivity.
Defined.

(** ** Runs over a target that is translated in part *)

Lemma get_own_none_not_in o k : get_own o k = None -> ~ In k (keys o).
Proof.
  induction o as [|[k' v] o IH]; cbn [get_own keys map fst In]; [tauto|].
  destruct (String.eqb_spec k' k) as [->|Hne]; [discriminate|].
  intros H [Heq|Hin]; [contradiction|]. now apply IH.
Qed.

Lemma missing_value_obj so tv d :
  missing_value (VObj so) tv = Some d -> d = VObj (findMissingKeys so tv).
Proof.
  unfold missing_value, findMissingKeys. cbn [is_plain_object].
  destruct (findMissing (VObj so) tv); [discriminate|]. now intros [= <-].
Qed.

Lemma missing_value_some_obj so tv a x :
  get_own (findMissingKeys so tv) a = Some x ->
  missing_value (VObj so) tv = Some (VObj (findMissingKeys so tv)).
Proof.
  unfold missing_value, findMissingKeys. cbn [is_plain_object].
  destruct (findMissing (VObj so) tv); [discriminate|reflexivity].
Qed.

(** X14.  A run that fills a nested object translated in part undoes the
    part: when the target holds an object at a key, with a leaf of the
    source translated in it already and something else missing in it, the
    merge replaces the object by the translation of what was missing, and
    the next diff reports the leaf as missing.  The runs over such a target
    never come to an end.  A lookup also finds what the target inherits, so
    the statement is for sources none of whose keys is the name of an
    inherited member and for targets that hold an object, or nothing,
    wherever the differ looks into them. *)
Theorem filling_a_nested_object_undoes_it ans source existing translated k so eo a x :
  wf_obj source = true ->
  own_keys (VObj source) = true ->
  object_targets (VObj source) existing = true ->
  get_own source k = Some (VObj so) ->
  target_value existing k = VObj eo ->
  get_own so a = Some x -> is_plain_object x = false ->
  nullish (target_value (VObj eo) a) = false ->
  hasOwnProperty (findMissingKeys source existing) k = true ->
  translation_entries ans (findMissingKeys source existing) translated ->
  get_own (findMissingKeys so (VObj eo)) a = None
  /\ exists d,
       get_own (findMissingKeys source (VObj (spread existing (VObj translated)))) k
       = Some (VObj d)
       /\ get_own d a = Some x.
Proof.
  intros Hwf Hown _ Hk Hek Ha Hleaf Hea Hmiss Ht.
  assert (Hwso : wf_obj so = true) by exact (wf_get_own _ _ _ Hwf Hk).
  assert (Hia : inherited a = false).
  { rewrite own_keys_obj in Hown.
    destruct (own_keys_get source k (VObj so) Hown Hk) as [_ Hoso].
    rewrite own_keys_obj in Hoso.
    exact (proj1 (own_keys_get so a x Hoso Ha)). }
  assert (Hda : get_own (findMissingKeys so (VObj eo)) a = None).
  { rewrite findMissingKeys_get, Ha by exact Hwso.
    unfold missing_value. now rewrite Hleaf, Hea. }
  split; [exact Hda|].
  assert (Hdk : get_own (findMissingKeys source existing) k
                = Some (VObj (findMissingKeys so (VObj eo)))).
  { unfold hasOwnProperty in Hmiss.
    rewrite findMissingKeys_get, Hk, Hek in * by exact Hwf.
    destruct (missing_value (VObj so) (VObj eo)) as [d|] eqn:Hd; [|discriminate].
    now rewrite (missing_value_obj _ _ _ Hd). }
  destruct (translation_entries_get ans _ _ _ _ Ht Hdk) as (x' & Hx' & Hrel).
  rewrite translation_of_obj in Hrel. destruct Hrel as (tk & -> & Htk).
  assert (Hnd : NoDup (keys translated)).
  { rewrite (translation_entries_keys ans _ _ Ht).
    apply wf_obj_NoDup. now apply findMissingKeys_wf. }
  assert (Hmk : target_value (VObj (spread existing (VObj translated))) k = VObj tk).
  { unfold target_value. cbn [truthy member]. unfold spread. cbn [own_entries].
    now rewrite assign_all_get, Hx' by exact Hnd. }
  assert (Hta : target_value (VObj tk) a = VUndef).
  { apply target_value_absent; [exact Hia|].
    rewrite (translation_entries_keys ans _ _ Htk).
    now apply get_own_none_not_in. }
  assert (Hnext : get_own (findMissingKeys so (VObj tk)) a = Some x).
  { rewrite findMissingKeys_get, Ha, Hta by exact Hwso.
    unfold missing_value. now rewrite Hleaf. }
  exists (findMissingKeys so (VObj tk)). split; [|exact Hnext].
  rewrite findMissingKeys_get, Hk, Hmk by exact Hwf.
  exact (missing_value_some_obj _ _ _ _ Hnext).
Qed.

Lemma filling_a_nested_object_undoes_it_witness :
  get_own (findMissingKeys
             [("open", VStr "Open"); ("close", VStr "Close")]
             (VObj [("open", VStr "Abrir")])) "open" = None
  /\ exists d,
       get_own
         (findMissingKeys nested_source
            (VObj (spread nested_existing
                     (VObj [("menu", VObj [("close", VStr "es:Close")])])))) "menu"
       = Some (VObj d)
       /\ get_own d "open" = Some (VStr "Open").
Proof.
  apply (filling_a_nested_object_undoes_it prefixed nested_source nested_existing
           [("menu", VObj [("close", VStr "es:Close")])] "menu"
           [("open", VStr "Open"); ("close", VStr "Close")]
           [("open", VStr "Abrir")] "open" (VStr "Open")).
  - reflexivity.
  - reflexivity.
  - reflexivity.
  - reflexivity.
  - reflexivity.
  - reflexivity.
  - reflexivity.
  - reflexivity.
  - reflexivity.
  - cbn. repeat split. eexists. split; [reflexivity|]. repeat split.
    eexists. split; reflexivity.
Defined.

(** ** The loop when the provider is down *)

Lemma strings_keys o s rest : strings_of (VObj o) = s :: rest -> keys o <> [].
Proof. destruct o; [discriminate|discriminate]. Qed.

(** X15.  When the provider fails every request for the first string that
    is missing for the first locale, the loop ends there: it throws the
    error of the adapter for that string after three requests, no file is
    written and no other locale is started.  The elements of an array are
    requested together, so the statement is for missing keys none of whose
    arrays holds two strings. *)
Theorem provider_down_stops_the_loop provider rt cdc cfg language rest w existing s more :
  outputLanguages cfg = language :: rest ->
  existing_of cdc cfg w (outputDir cfg ++ "/" ++ language ++ ".ts")%string
  = Some existing ->
  serial (VObj (findMissingKeys (languageSource cfg) existing)) = true ->
  strings_of (VObj (findMissingKeys (languageSource cfg) existing)) = s :: more ->
  always_fails provider s language ->
  run provider (translateForAllLanguages rt cdc cfg) w
  = (Err (persistent_error s 3),
     extend (set_language language w) 3
       (EvRead (outputDir cfg ++ "/" ++ language ++ ".ts")%string
        :: three_failures (requests w) s language)).
Proof.
  intros Hl Hload _ Hs Hf.
  unfold translateForAllLanguages. rewrite Hl. cbn [for_languages run].
  rewrite run_bind. unfold translateAllKeys, translateAndSaveNestedObject.
  rewrite run_bind.
  rewrite (run_load_existing provider cdc cfg _ (set_language language w) existing)
    by exact Hload.
  pose proof (strings_keys _ _ _ Hs) as Hk.
  destruct (keys (findMissingKeys (languageSource cfg) existing)) as [|k0 ks];
    [congruence|].
  rewrite run_bind. unfold translateNestedObject. rewrite run_bind.
  rewrite (failing_value provider language _ s more _ Hs Hf).
  rewrite extend_extend. reflexivity.
Qed.

Lemma provider_down_stops_the_loop_witness :
  run never_answers (translateForAllLanguages utc_english stub_codec calendar_config)
    (initial_world [])
  = (Err (persistent_error "Agenda" 3),
     extend (set_language "en" (initial_world [])) 3
       (EvRead "out/en.ts" :: three_failures 0 "Agenda" "en")).
Proof.
  apply (provider_down_stops_the_loop never_answers utc_english stub_codec
           calendar_config "en" ["es"] (initial_world []) (VObj []) "Agenda" ["Hoje"]).
  - reflexivity.
  - reflexivity.
  - reflexivity.
  - reflexivity.
  - intros id. reflexivity.
Defined.

(** ** The TypeScript module *)

Section Module.

Local Open Scope string_scope.

Lemma string_append_assoc (a b c : string) : (a ++ b) ++ c = a ++ b ++ c.
Proof. induction a as [|x a IH]; cbn; [reflexivity|now rewrite IH]. Qed.

(** X16.  In the TypeScript module a nested object is written as the text
    [[object Object]], whatever it holds: the text of the module does not
    depend on the contents of the objects of the tree, the calendar field
    apart, and the translations below the top level are not written. *)
Theorem ts_content_drops_nested_objects cdc before after k o1 o2 :
  k <> "calendar_locale" ->
  ts_content cdc (before ++ (k, VObj o1) :: after)%list
  = ts_content cdc (before ++ (k, VObj o2) :: after)%list
  /\ ts_content cdc [(k, VObj o1)]
     = "export default {" ++ str1 nl
       ++ "    " ++ k ++ ": [object Object]," ++ str1 nl ++ "};".
Proof.
  intros Hk. apply String.eqb_neq in Hk.
  unfold ts_content. split.
  - rewrite !fold_left_app. cbn [fold_left fst snd]. unfold formatValue.
    rewrite Hk. reflexivity.
  - cbn [fold_left fst snd]. unfold formatValue. rewrite Hk. cbn [to_string].
    rewrite !string_append_assoc. reflexivity.
Qed.

Lemma ts_content_drops_nested_objects_witness :
  ts_content stub_codec [("title", VStr "Agenda"); ("menu", VObj [("open", VStr "Abrir")])]
  = ts_content stub_codec [("title", VStr "Agenda"); ("menu", VObj [])]
  /\ ts_content stub_codec [("menu", VObj [("open", VStr "Abrir")])]
     = "export default {" ++ str1 nl
       ++ "    " ++ "menu" ++ ": [object Object]," ++ str1 nl ++ "};".
Proof.
  apply (ts_content_drops_nested_objects stub_codec [("title", VStr "Agenda")] []
           "menu" [("open", VStr "Abrir")] []).
  discriminate.
Defined.

(** X17.  A string is written to the TypeScript module as a literal that
    reads back as the string, when the string is without backslash,
    carriage return and [${], and without a backtick next to a line feed:
    the line of a key that holds such a string is the key, a colon and a
    literal whose value is the string. *)
Theorem ts_content_string_reads_back cdc k s :
  k <> "calendar_locale" -> plain s = true ->
  exists literal,
    ts_content cdc [(k, VStr s)]
    = "export default {" ++ str1 nl
      ++ "    " ++ k ++ ": " ++ literal ++ "," ++ str1 nl ++ "};"
    /\ parse_literal literal = Some s.
Proof.
  intros Hk Hplain.
  pose proof (formatValue_round_trip cdc s k Hk Hplain) as Hback.
  unfold read_back in Hback. unfold ts_content. cbn [fold_left fst snd].
  destruct (formatValue cdc (VStr s) k) as [| | | |literal| |]; try discriminate.
  exists literal. split; [|exact Hback].
  cbn [to_string]. rewrite !string_append_assoc. reflexivity.
Qed.

Lemma ts_content_string_reads_back_witness :
  exists literal,
    ts_content stub_codec [("title", VStr "It's 5 o'clock")]
    = "export default {" ++ str1 nl
      ++ "    " ++ "title" ++ ": " ++ literal ++ "," ++ str1 nl ++ "};"
    /\ parse_literal literal = Some "It's 5 o'clock".
Proof.
  apply (ts_content_string_reads_back stub_codec "title" "It's 5 o'clock").
  - discriminate.
  - reflexivity.
Defined.

End Module.

(** ** The extension of the source *)

Lemma apiSingleCall_result provider text lang w :
  exists n evs,
    (exists t, run provider (apiSingleCall text lang) w = (Ok (VStr t), extend w n evs))
    \/ run provider (apiSingleCall text lang) w
       = (Err (persistent_error text 3), extend w n evs).
Proof.
  unfold apiSingleCall, apiSingleCall_with.
  destruct (api_attempts_outcome provider 3 1 3 1000 text lang w)
    as (n & answer & _ & _ & _ & Hrun & _); [reflexivity | lia |].
  do 2 eexists. destruct answer as [t|]; [left; exists t|right]; exact Hrun.
Qed.

(** X18.  The extension [loadLanguageSource] accepts is one
    [saveTranslations] supports.  The module loads the source and saves the
    translations with the same extension: when the load has returned, the
    extension is [.json] or [.ts], and a save with it never throws the
    error of the unsupported extension, whatever the tree, the missing
    keys, the provider and the world. *)
Theorem loaded_extension_can_be_saved
    cdc path_resolve projectRoot languageSourcePath ext provider w source w' :
  run provider (loadLanguageSource cdc path_resolve projectRoot languageSourcePath ext) w
  = (Ok source, w') ->
  (ext = ".json" \/ ext = ".ts")
  /\ forall provider' rt filePath data missingKeys w2 msg w3,
       run provider' (saveTranslations rt cdc filePath data ext missingKeys) w2
       = (Err msg, w3) ->
       msg <> unsupported_save ext.
Proof.
  unfold loadLanguageSource. cbn [run]. intros Hrun.
  destruct (read_file (files w) (path_resolve projectRoot languageSourcePath))
    as [text|]; [|discriminate].
  assert (Hext : ext = ".json" \/ ext = ".ts").
  { destruct (String.eqb_spec ext ".json") as [->|_]; [now left|].
    destruct (String.eqb_spec ext ".ts") as [->|_]; [now right|discriminate]. }
  split; [exact Hext|].
  intros provider' rt filePath data missingKeys w2 msg w3 Hsave.
  unfold saveTranslations in Hsave. rewrite run_bind in Hsave.
  destruct (hasOwnProperty missingKeys "calendar_locale").
  - cbn [run] in Hsave. rewrite run_bind, daysForLocale_unfold in Hsave.
    cbn [run] in Hsave. rewrite run_bind in Hsave.
    destruct (apiSingleCall_result provider' "Hoje" (currentLanguage w2) w2)
      as (n & evs & [[t Hapi]|Hapi]); rewrite Hapi in Hsave.
    + cbn [run] in Hsave. rewrite run_save_tail in Hsave by exact Hext.
      discriminate.
    + injection Hsave as <- _. unfold unsupported_save.
      destruct Hext as [-> | ->]; discriminate.
  - cbn [run] in Hsave. rewrite run_save_tail in Hsave by exact Hext.
    discriminate.
Qed.

Lemma loaded_extension_can_be_saved_witness :
  (".json" = ".json" \/ ".json" = ".ts")%string
  /\ forall provider' rt filePath data missingKeys w2 msg w3,
       run provider'
         (saveTranslations rt (reading (VObj []) to_string) filePath data ".json"
            missingKeys) w2
       = (Err msg, w3) ->
       msg <> unsupported_save ".json".
Proof.
  apply (loaded_extension_can_be_saved (reading (VObj []) to_string) join_path
           "/app" "src/pt.json" ".json" never_answers
           (initial_world [("/app/src/pt.json", "{}")]) (VObj [])
           (extend (initial_world [("/app/src/pt.json", "{}")]) 0
              [EvRead "/app/src/pt.json"])).
  reflexivity.
Defined.

(** ** The loop without the calendar field *)

Section Paths.

Local Open Scope string_scope.

Lemma append_cancel_l (a b c : string) : a ++ b = a ++ c -> b = c.
Proof. induction a as [|x a IH]; cbn; [auto|]. intros [= H]. auto. Qed.

Lemma length_append (a b : string) :
  String.length (a ++ b) = (String.length a + String.length b)%nat.
Proof. induction a as [|x a IH]; cbn; [reflexivity|now rewrite IH]. Qed.

Lemma append_cancel_r (c : string) : forall a b, a ++ c = b ++ c -> a = b.
Proof.
  induction a as [|x a IH]; intros [|y b] H; cbn in H.
  - reflexivity.
  - apply (f_equal String.length) in H. cbn in H. rewrite length_append in H. lia.
  - apply (f_equal String.length) in H. cbn in H. rewrite length_append in H. lia.
  - injection H as -> H. f_equal. now apply IH.
Qed.

Lemma target_path_inj cfg l l' : target_path cfg l = target_path cfg l' -> l = l'.
Proof.
  unfold target_path. intros H.
  apply append_cancel_l, append_cancel_l in H. now apply append_cancel_r in H.
Qed.

End Paths.

Lemma trace_of_part {A : Type} (t : list A) a b e c r :
  (((t ++ [a]) ++ b :: e) ++ [c]) ++ r = t ++ (a :: b :: e ++ [c]) ++ r.
Proof. rewrite <- !app_assoc. simpl. now rewrite <- app_assoc. Qed.

Lemma for_languages_from_nothing rt cdc cfg tr :
  wf_obj (languageSource cfg) = true ->
  hasOwnProperty (languageSource cfg) "calendar_locale" = false ->
  findMissingKeys (languageSource cfg) (VObj []) <> [] ->
  ext cfg = ".json" \/ ext cfg = ".ts" ->
  forall languages w,
    NoDup languages ->
    (forall l, In l languages -> read_file (files w) (target_path cfg l) = None) ->
    exists parts w',
      run (answering tr) (for_languages rt cdc cfg languages) w = (Ok tt, w')
      /\ detached w' = detached w
      /\ trace w' = trace w ++ List.concat parts
      /\ Forall2 (locale_part cdc cfg tr) languages parts.
Proof.
  intros Hwf Hcal Hsome Hext.
  induction languages as [|l rest IH]; intros w Hnd Hnone.
  - exists [], w. cbn. rewrite app_nil_r. auto.
  - inversion Hnd as [|? ? Hl Hrest]; subst.
    cbn [for_languages run]. rewrite run_bind.
    destruct (run_from_nothing rt cdc cfg tr (languageSource cfg) l
                (target_path cfg l) (set_language l w) Hwf Hcal Hsome Hext)
      as (translated & evs & Ht & He & Hrun); [apply Hnone; now left|].
    unfold translateAllKeys. fold (target_path cfg l). rewrite Hrun.
    match goal with
    | |- context [run _ _ ?w1] => set (w1' := w1)
    end.
    destruct (IH w1' Hrest) as (parts & w' & Hloop & Hdet & Htrace & Hparts).
    { intros l' Hin. subst w1'. cbn [files write_file extend set_language read_file].
      destruct (String.eqb_spec (target_path cfg l) (target_path cfg l')) as [Heq|_].
      - apply target_path_inj in Heq. subst l'. contradiction.
      - apply Hnone. now right. }
    exists ((EvSetLang l :: EvRead (target_path cfg l)
             :: evs ++ [EvWrite (target_path cfg l)
                          (persisted cdc (ext cfg) translated)]) :: parts), w'.
    split; [exact Hloop|]. split; [exact Hdet|].
    split.
    + rewrite Htrace. subst w1'.
      cbn [trace write_file extend set_language List.concat].
      apply trace_of_part.
    + constructor; [|exact Hparts].
      exists (requests w), translated, evs.
      split; [exact Ht|]. split; [exact He|reflexivity].
Qed.

(** X19.  Without the calendar field the loop is sequential.  For a
    well-formed source that does not hold [calendar_locale] and none of
    whose keys is the name of an inherited member, distinct locales none of
    which has a target file, and a provider that answers: the loop returns,
    no call is left waiting, and what has happened is, locale after locale
    in the configured order, the setting of the language, the look for the
    target file, the requests for the strings that are missing against the
    empty tree with their answers, and one writing of the file, with the
    text the serializer gives for a translation of what was missing; the
    file of a locale is written before the next locale starts.  What that
    text holds of the translation is the serializer's matter; the file
    system is taken to accept the writes. *)
Theorem loop_is_sequential_without_calendar rt cdc cfg tr w :
  wf_obj (languageSource cfg) = true ->
  own_keys (VObj (languageSource cfg)) = true ->
  hasOwnProperty (languageSource cfg) "calendar_locale" = false ->
  findMissingKeys (languageSource cfg) (VObj []) <> [] ->
  ext cfg = ".json" \/ ext cfg = ".ts" ->
  NoDup (outputLanguages cfg) ->
  (forall l, In l (outputLanguages cfg) ->
             read_file (files w) (target_path cfg l) = None) ->
  exists parts w',
    run (answering tr) (translateForAllLanguages rt cdc cfg) w = (Ok tt, w')
    /\ detached w' = detached w
    /\ trace w' = trace w ++ List.concat parts
    /\ Forall2 (locale_part cdc cfg tr) (outputLanguages cfg) parts.
Proof.
  intros Hwf _ Hcal Hsome Hext Hnd Hnone.
  now apply for_languages_from_nothing.
Qed.

Lemma loop_is_sequential_without_calendar_witness :
  exists parts w',
    run (answering echo) (translateForAllLanguages utc_english stub_codec two_locales)
      (initial_world [])
    = (Ok tt, w')
    /\ detached w' = []
    /\ trace w' = [] ++ List.concat parts
    /\ Forall2 (locale_part stub_codec two_locales echo) ["en"; "es"] parts.
Proof.
  apply (loop_is_sequential_without_calendar utc_english stub_codec two_locales echo
           (initial_world [])).
  - reflexivity.
  - reflexivity.
  - reflexivity.
  - discriminate.
  - left. reflexivity.
  - repeat constructor; cbn; intuition discriminate.
  - intros l _. reflexivity.
Defined.

